(** * Change-graph coordination engine: a shallow embedding

    The definitions below transcribe, function by function, the parts of the
    web client's stores and of the [status_updates] migration that the
    specification talks about:

    - [ActionsStore]    : the [proposedActions] getter of the actions store
                          (the action scheduler);
    - [ComponentsStore] : the [getDependentComponents] getter of the
                          components store, and the optimistic callbacks of
                          its edge and component mutations with the rollback
                          closures they return;
    - [StatusUpdates]   : the [status_update_create_v1] SQL function.

    Besides these, [ComponentsStore] holds the getters on the component
    tree, the edge groups, the change statistics and the selection action,
    [WorkspacesStore] the workspaces store of the same file, and
    [FeatureFlagsStore] the feature-flags store.

    JavaScript objects used as dictionaries are finite maps ([gmap]); arrays
    are lists; in-place mutation is explicit state passing, and objects that
    closures capture by reference live in an explicit heap.  Ids are taken
    to be ordinary keys: none is a name that every JavaScript object
    inherits, such as ["constructor"].  Each module of definitions is
    followed, further down, by a module of proofs. *)

From stdpp Require Import gmap strings list fin_maps sorting pretty.

#[local] Set Warnings "-clear-no-such-hyp".

Local Open Scope string_scope.
Local Open Scope list_scope.
Local Open Scope nat_scope.

(* ===================================================================== *)
(** * The action scheduler ([actions.store.ts], getter [proposedActions]) *)
(* ===================================================================== *)

Module ActionsStore.

Definition ActionId := string.
Definition ActionPrototypeId := string.
Definition ComponentId := string.

(** [ProposedAction = ActionInstance & { kind : ActionKind }]. *)
Record ProposedAction := mkAction {
  id : ActionId;
  actionPrototypeId : ActionPrototypeId;
  name : string;
  componentId : ComponentId;
  actor : option string;
  parents : list ActionId;
  kind : string
}.

#[export] Instance ProposedAction_eq_dec : EqDecision ProposedAction.
Proof. solve_decision. Defined.

Definition set_parents (ps : list ActionId) (a : ProposedAction) : ProposedAction :=
  {| id := id a; actionPrototypeId := actionPrototypeId a; name := name a;
     componentId := componentId a; actor := actor a; parents := ps;
     kind := kind a |}.

Inductive ChangeSetStatus :=
  Open | Applied | Failed | Closed | Abandoned | NeedsApproval.

(** [ChangeSet], without its optional approval and merge-request fields;
    [id] and [name] carry a prefix, the bare names are the action's. *)
Record ChangeSet := mkChangeSet {
  cs_id : string;
  cs_pk : string;
  cs_name : string;
  actions : gmap ActionId ProposedAction;
  status : ChangeSetStatus
}.

Definition set_actions (g : gmap ActionId ProposedAction) (cs : ChangeSet) : ChangeSet :=
  {| cs_id := cs_id cs; cs_pk := cs_pk cs; cs_name := cs_name cs; actions := g;
     status := status cs |}.

(** [sortedEntries = _.entries(graph); sortedEntries.sort(([a],[b]) =>
    a.localeCompare(b))].  The keys of an object are pairwise distinct, so
    the sorted array does not depend on the enumeration order of the
    object; [localeCompare] is taken to be the code-unit order on ids. *)
Definition entry_le (x y : ActionId * ProposedAction) : Prop := String.le x.1 y.1.

#[export] Instance entry_le_dec : RelDecision entry_le.
Proof. intros x y. unfold entry_le. apply _. Defined.

Definition sortedEntries (graph : gmap ActionId ProposedAction)
  : list (ActionId * ProposedAction) :=
  merge_sort entry_le (map_to_list graph).

(** The first [for] loop: entries with [action.parents.length === 0]. *)
Definition readyEntries (graph : gmap ActionId ProposedAction)
  : list (ActionId * ProposedAction) :=
  filter (λ e, length (parents e.2) = 0) (sortedEntries graph).

(** [childAction.parents.findIndex((parentId) => parentId === removeId)];
    [None] stands for [-1]. *)
Definition findIndex (removeId : ActionId) (ps : list ActionId) : option nat :=
  fst <$> list_find (λ parentId, parentId = removeId) ps.

(** [if (index !== -1) childAction.parents.splice(index)]: [splice] with a
    single argument deletes every element from [index] to the end. *)
Definition spliceParents (removeId : ActionId) (childAction : ProposedAction)
  : ProposedAction :=
  match findIndex removeId (parents childAction) with
  | Some index => set_parents (take index (parents childAction)) childAction
  | None => childAction
  end.

(** One iteration of [for (const removeId of removeIds)]:
    [delete graph[removeId]] and then the loop over [_.values(graph)]. *)
Definition removeAction (graph : gmap ActionId ProposedAction) (removeId : ActionId)
  : gmap ActionId ProposedAction :=
  spliceParents removeId <$> delete removeId graph.

(** The body of the [while] loop, on the pair (output array, graph). *)
Definition loopBody (acts : list ProposedAction) (graph : gmap ActionId ProposedAction)
  : list ProposedAction * gmap ActionId ProposedAction :=
  let ready := readyEntries graph in
  (acts ++ ready.*2, foldl removeAction graph ready.*1).

(** [while (_.keys(graph).length) { ... } return actions]; [None] is
    "still looping after [fuel] iterations". *)
Fixpoint whileLoop (fuel : nat) (acts : list ProposedAction)
    (graph : gmap ActionId ProposedAction)
  : option (list ProposedAction * gmap ActionId ProposedAction) :=
  if decide (size graph = 0) then Some (acts, graph)
  else match fuel with
       | 0 => None
       | S fuel' =>
           let '(acts', graph') := loopBody acts graph in
           whileLoop fuel' acts' graph'
       end.

(** The getter.  [graph] is [selectedChangeSet?.actions ?? {}]: the map
    owned by the selected change set itself, not a copy; the second
    component of the result is the change set as the getter leaves it. *)
Definition proposedActions (fuel : nat) (selectedChangeSet : option ChangeSet)
  : option (list ProposedAction * option ChangeSet) :=
  match selectedChangeSet with
  | Some cs =>
      '(acts, graph') ← whileLoop fuel [] (actions cs);
      Some (acts, Some (set_actions graph' cs))
  | None =>
      '(acts, _) ← whileLoop fuel [] ∅;
      Some (acts, None)
  end.

(** ** Sample inputs *)

Definition action (i : ActionId) (ps : list ActionId) : ProposedAction :=
  {| id := i; actionPrototypeId := "proto"; name := "create";
     componentId := "comp-" +:+ i; actor := None; parents := ps;
     kind := "create" |}.

Definition graph_of (l : list ProposedAction) : gmap ActionId ProposedAction :=
  list_to_map ((λ a, (id a, a)) <$> l).

Definition changeSet_of (l : list ProposedAction) : ChangeSet :=
  {| cs_id := "cs-1"; cs_pk := "cs-1"; cs_name := "change set";
     actions := graph_of l; status := Open |}.

(** X(parents:[Y]), Y(parents:[X]). *)
Definition cyclic_XY : list ProposedAction :=
  [action "X" ["Y"]; action "Y" ["X"]].

(** A(parents:[]), B(parents:[A]), C(parents:[A]), D(parents:[B,C]). *)
Definition diamond : list ProposedAction :=
  [action "A" []; action "B" ["A"]; action "C" ["A"]; action "D" ["B"; "C"]].

(** A(parents:[]), C(parents:[A]), B(parents:[A,C]): acyclic. *)
Definition chain_ACB : list ProposedAction :=
  [action "A" []; action "B" ["A"; "C"]; action "C" ["A"]].

(** A(parents:[]), B(parents:[A]), C(parents:[A]), D(parents:[C]). *)
Definition forest : list ProposedAction :=
  [action "A" []; action "B" ["A"]; action "C" ["A"]; action "D" ["C"]].

(** Three actions without parents, inserted out of order. *)
Definition parentless : list ProposedAction :=
  [action "c" []; action "a" []; action "b" []].

(** ** What the specification asks of a linearization *)

(** [out] lists every action after each action named in its [parents]
    list, the parents being those of the input [graph]. *)
Definition topological (graph : gmap ActionId ProposedAction) (out : list ActionId) : Prop :=
  ∀ i k a p, out !! i = Some k → graph !! k = Some a → p ∈ parents a →
             ∃ j, j < i ∧ out !! j = Some p.

(** The [parents] relation of [graph] has no cycle: some ranking of the
    ids puts every parent strictly below its child. *)
Definition acyclic (graph : gmap ActionId ProposedAction) : Prop :=
  ∃ rank : ActionId → nat,
    ∀ k a p, graph !! k = Some a → p ∈ parents a → rank p < rank k.

(** Every entry of [graph] is filed under the [id] of its action. *)
Definition wellKeyed (graph : gmap ActionId ProposedAction) : Prop :=
  ∀ k a, graph !! k = Some a → id a = k.

(** Every id named as a parent is the id of an action of [graph]. *)
Definition closed (graph : gmap ActionId ProposedAction) : Prop :=
  ∀ k a p, graph !! k = Some a → p ∈ parents a → is_Some (graph !! p).

(** [out] lists every action after the first action named in its [parents]
    list. *)
Definition firstParentOrder (graph : gmap ActionId ProposedAction) (out : list ActionId)
  : Prop :=
  ∀ i k a p ps, out !! i = Some k → graph !! k = Some a → parents a = p :: ps →
                ∃ j, j < i ∧ out !! j = Some p.

(** The prefix of [ps] before the first occurrence of [removeId]. *)
Fixpoint parentsBefore (removeId : ActionId) (ps : list ActionId) : list ActionId :=
  match ps with
  | [] => []
  | p :: ps' => if decide (p = removeId) then [] else p :: parentsBefore removeId ps'
  end.

(** The [parents] list after the removal of [removeIds], in that order. *)
Definition cutParents (removeIds ps : list ActionId) : list ActionId :=
  foldl (λ ps removeId, parentsBefore removeId ps) ps removeIds.

End ActionsStore.

(* ===================================================================== *)
(** * The components store ([components.store.ts])                        *)
(* ===================================================================== *)

Module ComponentsStore.

Definition ComponentId := string.
Definition ComponentNodeId := string.
Definition EdgeId := string.
Definition SocketId := string.

Inductive ChangeStatus := added | deleted | modified | unmodified.

#[export] Instance ChangeStatus_eq_dec : EqDecision ChangeStatus.
Proof. solve_decision. Defined.

Record ActorView := mkActorView { kind : string; label : string }.

#[export] Instance ActorView_eq_dec : EqDecision ActorView.
Proof. solve_decision. Defined.

Record ActorAndTimestamp := mkActorAndTimestamp {
  actor : ActorView;
  timestamp : string
}.

#[export] Instance ActorAndTimestamp_eq_dec : EqDecision ActorAndTimestamp.
Proof. solve_decision. Defined.

(** [{ kind: "user", label: "You" }] *)
Definition You : ActorView := {| kind := "user"; label := "You" |}.

Module Edge.
Record t := mk {
  id : EdgeId;
  fromNodeId : ComponentNodeId;
  fromSocketId : SocketId;
  toNodeId : ComponentNodeId;
  toSocketId : SocketId;
  isInvisible : option bool;
  changeStatus : option ChangeStatus;
  createdInfo : ActorAndTimestamp;
  deletedInfo : option ActorAndTimestamp
}.

(** [edge.changeStatus = v] *)
Definition set_changeStatus (v : option ChangeStatus) (e : t) : t :=
  {| id := id e; fromNodeId := fromNodeId e; fromSocketId := fromSocketId e;
     toNodeId := toNodeId e; toSocketId := toSocketId e;
     isInvisible := isInvisible e; changeStatus := v;
     createdInfo := createdInfo e; deletedInfo := deletedInfo e |}.

(** [edge.deletedInfo = v]; [None] is [delete edge.deletedInfo]. *)
Definition set_deletedInfo (v : option ActorAndTimestamp) (e : t) : t :=
  {| id := id e; fromNodeId := fromNodeId e; fromSocketId := fromSocketId e;
     toNodeId := toNodeId e; toSocketId := toSocketId e;
     isInvisible := isInvisible e; changeStatus := changeStatus e;
     createdInfo := createdInfo e; deletedInfo := v |}.
End Edge.

#[export] Instance Edge_eq_dec : EqDecision Edge.t.
Proof. solve_decision. Defined.

(** The fields of [RawComponent] that the modelled actions read or write,
    and its identity and tree fields; the presentation fields (schema
    names, colour, position, resource, sockets) are never touched by
    them. *)
Module RawComponent.
Record t := mk {
  id : ComponentId;
  nodeId : ComponentNodeId;
  displayName : string;
  parentNodeId : option ComponentNodeId;
  childNodeIds : list ComponentNodeId;
  changeStatus : ChangeStatus;
  createdInfo : ActorAndTimestamp;
  updatedInfo : ActorAndTimestamp;
  deletedInfo : option ActorAndTimestamp
}.

Definition set_changeStatus (v : ChangeStatus) (c : t) : t :=
  {| id := id c; nodeId := nodeId c; displayName := displayName c;
     parentNodeId := parentNodeId c; childNodeIds := childNodeIds c;
     changeStatus := v; createdInfo := createdInfo c;
     updatedInfo := updatedInfo c; deletedInfo := deletedInfo c |}.

Definition set_deletedInfo (v : option ActorAndTimestamp) (c : t) : t :=
  {| id := id c; nodeId := nodeId c; displayName := displayName c;
     parentNodeId := parentNodeId c; childNodeIds := childNodeIds c;
     changeStatus := changeStatus c; createdInfo := createdInfo c;
     updatedInfo := updatedInfo c; deletedInfo := v |}.
End RawComponent.

#[export] Instance RawComponent_eq_dec : EqDecision RawComponent.t.
Proof. solve_decision. Defined.

(** ** The reachability getter [getDependentComponents] *)

(** [connectedNodes[fromNodeId] ||= []; connectedNodes[fromNodeId].push(toNodeId)] *)
Definition addEdge (connectedNodes : gmap ComponentId (list ComponentId)) (edge : Edge.t)
  : gmap ComponentId (list ComponentId) :=
  let fromNodeId := Edge.fromNodeId edge in
  let toNodeId := Edge.toNodeId edge in
  <[fromNodeId := default [] (connectedNodes !! fromNodeId) ++ [toNodeId]]> connectedNodes.

(** [_.each(edges, (edge) => ...)] starting from [connectedNodes = {}]. *)
Definition connectedNodesOf (edges : list Edge.t) : gmap ComponentId (list ComponentId) :=
  foldl addEdge ∅ edges.

(** [walkGraph(id)]: the array [connectedIds] it closes over is threaded
    through; [fuel] bounds the depth of the recursion and [None] means the
    bound was hit. *)
Fixpoint walkGraph (fuel : nat) (connectedNodes : gmap ComponentId (list ComponentId))
    (id : ComponentId) (connectedIds : list ComponentId) : option (list ComponentId) :=
  match fuel with
  | 0 => None
  | S fuel' =>
      let nextIds := default [] (connectedNodes !! id) in
      foldl (λ acc nid,
               connectedIds ← acc;
               if decide (nid ∈ connectedIds) then Some connectedIds
               else walkGraph fuel' connectedNodes nid (connectedIds ++ [nid]))
            (Some connectedIds) nextIds
  end.

(** The getter on the array [_.values(state.edgesById)].  Every nested call
    of [walkGraph] follows the push of an id that is the target of some
    edge and was not yet in [connectedIds], so the depth never exceeds the
    number of edges plus one. *)
Definition getDependentComponentsOf (edges : list Edge.t) (componentId : ComponentId)
  : option (list ComponentId) :=
  walkGraph (S (length edges)) (connectedNodesOf edges) componentId [componentId].

(** ** What the specification asks of the reachability query *)

(** The directed relation induced by the edges' from→to direction. *)
Definition edgeTo (edges : list Edge.t) (x y : ComponentId) : Prop :=
  ∃ e, e ∈ edges ∧ Edge.fromNodeId e = x ∧ Edge.toNodeId e = y.

(** [reachableFrom]: the closure of that relation from [rootId], [rootId]
    included. *)
Definition reachableFrom (edges : list Edge.t) (rootId x : ComponentId) : Prop :=
  rtc (edgeTo edges) rootId x.

(** ** The store state *)

(** Edge objects live in a heap: [edgesById] maps an id to a reference, and
    a closure that captures [this.edgesById[edgeId]] captures the reference,
    not a copy of the object. *)
Definition loc := positive.

(** Of the state of the store: the two entity maps and the selection and
    hover fields; the caches of fetched code views, diffs and schema
    variants are left out, no modelled action touches them. *)
Record State := mkState {
  edgeObjects : gmap loc Edge.t;
  rawComponentsById : gmap ComponentId RawComponent.t;
  edgesById : gmap EdgeId loc;
  selectedComponentIds : list ComponentId;
  selectedEdgeId : option EdgeId;
  hoveredComponentId : option ComponentId;
  hoveredEdgeId : option EdgeId
}.

Definition set_edgeObjects (h : gmap loc Edge.t) (s : State) : State :=
  {| edgeObjects := h; rawComponentsById := rawComponentsById s;
     edgesById := edgesById s; selectedComponentIds := selectedComponentIds s;
     selectedEdgeId := selectedEdgeId s;
     hoveredComponentId := hoveredComponentId s; hoveredEdgeId := hoveredEdgeId s |}.

Definition set_rawComponentsById (m : gmap ComponentId RawComponent.t) (s : State) : State :=
  {| edgeObjects := edgeObjects s; rawComponentsById := m;
     edgesById := edgesById s; selectedComponentIds := selectedComponentIds s;
     selectedEdgeId := selectedEdgeId s;
     hoveredComponentId := hoveredComponentId s; hoveredEdgeId := hoveredEdgeId s |}.

Definition set_edgesById (m : gmap EdgeId loc) (s : State) : State :=
  {| edgeObjects := edgeObjects s; rawComponentsById := rawComponentsById s;
     edgesById := m; selectedComponentIds := selectedComponentIds s;
     selectedEdgeId := selectedEdgeId s;
     hoveredComponentId := hoveredComponentId s; hoveredEdgeId := hoveredEdgeId s |}.

Definition set_selectedEdgeId (v : option EdgeId) (s : State) : State :=
  {| edgeObjects := edgeObjects s; rawComponentsById := rawComponentsById s;
     edgesById := edgesById s; selectedComponentIds := selectedComponentIds s;
     selectedEdgeId := v;
     hoveredComponentId := hoveredComponentId s; hoveredEdgeId := hoveredEdgeId s |}.

(** The state of a freshly defined store. *)
Definition initialState : State :=
  {| edgeObjects := ∅; rawComponentsById := ∅; edgesById := ∅;
     selectedComponentIds := []; selectedEdgeId := None;
     hoveredComponentId := None; hoveredEdgeId := None |}.

(** Every reference held by [edgesById] leads to an object.  The store only
    ever files references to objects it has just created or already holds,
    and objects are never freed. *)
Definition wellFormed (s : State) : Prop :=
  ∀ edgeId l, edgesById s !! edgeId = Some l → is_Some (edgeObjects s !! l).

(** [this.edgesById[edgeId]] read as an object: [None] is [undefined]. *)
Definition edgeAt (s : State) (edgeId : EdgeId) : option Edge.t :=
  l ← edgesById s !! edgeId; edgeObjects s !! l.

(** In-place update of the object behind a reference. *)
Definition updateEdgeObject (l : loc) (f : Edge.t → Edge.t) (s : State) : State :=
  set_edgeObjects (alter f l (edgeObjects s)) s.

(** A new object literal. *)
Definition newEdgeObject (e : Edge.t) (s : State) : loc * State :=
  let l := fresh (dom (edgeObjects s)) in
  (l, set_edgeObjects (<[l := e]> (edgeObjects s)) s).

(** What an observer of the store sees: every edge id with the contents of
    its object, the components, and the selection and hover fields. *)
Record Snapshot := mkSnapshot {
  snap_edges : gmap EdgeId Edge.t;
  snap_components : gmap ComponentId RawComponent.t;
  snap_selectedComponentIds : list ComponentId;
  snap_selectedEdgeId : option EdgeId;
  snap_hoveredComponentId : option ComponentId;
  snap_hoveredEdgeId : option EdgeId
}.

Definition snapshot (s : State) : Snapshot :=
  {| snap_edges := omap (λ l, edgeObjects s !! l) (edgesById s);
     snap_components := rawComponentsById s;
     snap_selectedComponentIds := selectedComponentIds s;
     snap_selectedEdgeId := selectedEdgeId s;
     snap_hoveredComponentId := hoveredComponentId s;
     snap_hoveredEdgeId := hoveredEdgeId s |}.

(** [allEdges: (state) => _.values(state.edgesById)], in the key order of
    the finite map. *)
Definition allEdges (s : State) : list Edge.t :=
  (map_to_list (snap_edges (snapshot s))).*2.

Definition getDependentComponents (s : State) (componentId : ComponentId)
  : option (list ComponentId) :=
  getDependentComponentsOf (allEdges s) componentId.

(** ** Results of an action body *)

(** A body either completes or throws the [TypeError] of a property access
    on [undefined]. *)
Inductive Result (A : Type) :=
| Ok (a : A)
| TypeError.
Arguments Ok {A} a.
Arguments TypeError {A}.

(** ** Rollback closures *)

(** The closures returned by the [optimistic] callbacks, each with the
    variables it captures. *)
Inductive Rollback :=
| CREATE_COMPONENT_CONNECTION_rollback (tempId : EdgeId)
| DELETE_EDGE_added_rollback (edgeId : EdgeId) (originalEdge : loc)
| DELETE_EDGE_other_rollback (edgeId : EdgeId) (originalStatus : option ChangeStatus)
| RESTORE_EDGE_rollback (edgeId : EdgeId) (originalEdge : loc)
| DELETE_COMPONENT_rollback (componentId : ComponentId) (originalStatus : ChangeStatus).

Definition runRollback (rb : Rollback) (s : State) : Result State :=
  match rb with
  | CREATE_COMPONENT_CONNECTION_rollback tempId =>
      (* delete this.edgesById[tempId]; *)
      Ok (set_edgesById (delete tempId (edgesById s)) s)
  | DELETE_EDGE_added_rollback edgeId originalEdge =>
      (* this.edgesById[edgeId] = originalEdge; this.selectedEdgeId = edgeId; *)
      Ok (set_selectedEdgeId (Some edgeId)
            (set_edgesById (<[edgeId := originalEdge]> (edgesById s)) s))
  | DELETE_EDGE_other_rollback edgeId originalStatus =>
      (* this.edgesById[edgeId].changeStatus = originalStatus;
         delete this.edgesById[edgeId]?.deletedInfo;
         this.selectedEdgeId = edgeId; *)
      match edgesById s !! edgeId with
      | None => TypeError
      | Some l =>
          let s1 := updateEdgeObject l (Edge.set_changeStatus originalStatus) s in
          let s2 := updateEdgeObject l (Edge.set_deletedInfo None) s1 in
          Ok (set_selectedEdgeId (Some edgeId) s2)
      end
  | RESTORE_EDGE_rollback edgeId originalEdge =>
      (* this.edgesById[edgeId] = originalEdge; this.selectedEdgeId = edgeId; *)
      Ok (set_selectedEdgeId (Some edgeId)
            (set_edgesById (<[edgeId := originalEdge]> (edgesById s)) s))
  | DELETE_COMPONENT_rollback componentId originalStatus =>
      (* this.rawComponentsById[componentId].changeStatus = originalStatus;
         delete this.rawComponentsById[componentId].deletedInfo; *)
      match rawComponentsById s !! componentId with
      | None => TypeError
      | Some _ =>
          let f c := RawComponent.set_deletedInfo None
                       (RawComponent.set_changeStatus originalStatus c) in
          Ok (set_rawComponentsById (alter f componentId (rawComponentsById s)) s)
      end
  end.

(** ** Optimistic callbacks

    Each callback runs against the current state and returns the new state
    with the closure that undoes it.  Every [TypeError] below is thrown by
    the first statement of its body, before any write. *)

Record SocketRef := mkSocketRef { nodeId : ComponentNodeId; socketId : SocketId }.

(** [const tempId = `temp-edge-${+new Date()}`], for a clock reading of
    [nowMs] milliseconds. *)
Definition tempIdAt (nowMs : Z) : EdgeId := "temp-edge-" +:+ pretty nowMs.

(** [optimistic] of [CREATE_COMPONENT_CONNECTION]; [nowTs] is
    [new Date().toISOString()]. *)
Definition CREATE_COMPONENT_CONNECTION_optimistic
    (tempId : EdgeId) (nowTs : string) (from to : SocketRef) (s : State)
  : Result (State * Rollback) :=
  let edge :=
    {| Edge.id := tempId;
       Edge.fromNodeId := nodeId from;
       Edge.fromSocketId := socketId from;
       Edge.toNodeId := nodeId to;
       Edge.toSocketId := socketId to;
       Edge.isInvisible := None;
       Edge.changeStatus := Some added;
       Edge.createdInfo := {| timestamp := nowTs; actor := You |};
       Edge.deletedInfo := None |} in
  let '(l, s1) := newEdgeObject edge s in
  Ok (set_edgesById (<[tempId := l]> (edgesById s1)) s1,
      CREATE_COMPONENT_CONNECTION_rollback tempId).

(** [onSuccess] of [CREATE_COMPONENT_CONNECTION], for
    [response.connection.id = connectionId]. *)
Definition CREATE_COMPONENT_CONNECTION_onSuccess
    (tempId : EdgeId) (connectionId : EdgeId) (s : State) : State :=
  match edgesById s !! tempId with
  | Some l =>
      (* this.edgesById[response.connection.id] = this.edgesById[tempId];
         delete this.edgesById[tempId]; *)
      set_edgesById (delete tempId (<[connectionId := l]> (edgesById s))) s
  | None => s
  end.

(** [optimistic] of [DELETE_EDGE]; [nowTs] is [new Date().toISOString()].
    The inner [None] stands for a reference without an object, which a
    [wellFormed] store does not hold. *)
Definition DELETE_EDGE_optimistic (nowTs : string) (edgeId : EdgeId) (s : State)
  : Result (State * Rollback) :=
  match edgesById s !! edgeId with
  | None => TypeError
  | Some l =>
      match edgeObjects s !! l with
      | None => TypeError
      | Some edge =>
          if decide (Edge.changeStatus edge = Some added) then
            let originalEdge := l in
            let s1 := set_edgesById (delete edgeId (edgesById s)) s in
            let s2 := set_selectedEdgeId None s1 in
            Ok (s2, DELETE_EDGE_added_rollback edgeId originalEdge)
          else
            let originalStatus := Edge.changeStatus edge in
            let s1 := updateEdgeObject l (Edge.set_changeStatus (Some deleted)) s in
            let s2 := updateEdgeObject l
                        (Edge.set_deletedInfo
                           (Some {| timestamp := nowTs; actor := You |})) s1 in
            Ok (s2, DELETE_EDGE_other_rollback edgeId originalStatus)
      end
  end.

(** [optimistic] of [RESTORE_EDGE]. *)
Definition RESTORE_EDGE_optimistic (edgeId : EdgeId) (s : State)
  : Result (State * Rollback) :=
  match edgesById s !! edgeId with
  | None =>
      (* originalEdge is undefined, the optional delete does nothing and the
         assignment to changeStatus throws *)
      TypeError
  | Some l =>
      let originalEdge := l in
      let s1 := updateEdgeObject l (Edge.set_deletedInfo None) s in
      let s2 := updateEdgeObject l (Edge.set_changeStatus (Some unmodified)) s1 in
      Ok (s2, RESTORE_EDGE_rollback edgeId originalEdge)
  end.

(** [optimistic] of [DELETE_COMPONENT]. *)
Definition DELETE_COMPONENT_optimistic (nowTs : string) (componentId : ComponentId)
    (s : State) : Result (State * Rollback) :=
  match rawComponentsById s !! componentId with
  | None => TypeError
  | Some c =>
      let originalStatus := RawComponent.changeStatus c in
      let f c := RawComponent.set_deletedInfo
                   (Some {| timestamp := nowTs; actor := You |})
                   (RawComponent.set_changeStatus deleted c) in
      Ok (set_rawComponentsById (alter f componentId (rawComponentsById s)) s,
          DELETE_COMPONENT_rollback componentId originalStatus)
  end.

(** [onSuccess] of [FETCH_DIAGRAM_DATA]: both maps are replaced by
    [_.keyBy(response.components, "id")] and [_.keyBy(response.edges, "id")],
    whose objects are new. *)
Definition keyByComponents (components : list RawComponent.t)
  : gmap ComponentId RawComponent.t :=
  foldl (λ m c, <[RawComponent.id c := c]> m) ∅ components.

Fixpoint keyByEdges_from (m : gmap EdgeId loc) (s : State) (edges : list Edge.t)
  : gmap EdgeId loc * State :=
  match edges with
  | [] => (m, s)
  | e :: edges' =>
      let '(l, s') := newEdgeObject e s in
      keyByEdges_from (<[Edge.id e := l]> m) s' edges'
  end.

Definition keyByEdges (edges : list Edge.t) (s : State) : gmap EdgeId loc * State :=
  keyByEdges_from ∅ s edges.

Definition FETCH_DIAGRAM_DATA_onSuccess
    (components : list RawComponent.t) (edges : list Edge.t) (s : State) : State :=
  let s1 := set_rawComponentsById (keyByComponents components) s in
  let '(m, s2) := keyByEdges edges s1 in
  set_edgesById m s2.

(** [setSelectedEdgeId(selection)] *)
Definition setSelectedEdgeId (selection : option EdgeId) (s : State) : State :=
  {| edgeObjects := edgeObjects s; rawComponentsById := rawComponentsById s;
     edgesById := edgesById s; selectedComponentIds := [];
     selectedEdgeId := selection;
     hoveredComponentId := hoveredComponentId s; hoveredEdgeId := hoveredEdgeId s |}.

(** ** Sample inputs *)

Definition stamp (ts : string) : ActorAndTimestamp :=
  {| actor := {| kind := "user"; label := "someone" |}; timestamp := ts |}.

Definition edge (i : EdgeId) (from to : ComponentNodeId)
    (st : option ChangeStatus) (del : option ActorAndTimestamp) : Edge.t :=
  {| Edge.id := i; Edge.fromNodeId := from; Edge.fromSocketId := "out";
     Edge.toNodeId := to; Edge.toSocketId := "in"; Edge.isInvisible := None;
     Edge.changeStatus := st; Edge.createdInfo := stamp "2023-05-01T10:00:00.000Z";
     Edge.deletedInfo := del |}.

Definition component (i : ComponentId) (st : ChangeStatus) : RawComponent.t :=
  {| RawComponent.id := i; RawComponent.nodeId := "node-" +:+ i;
     RawComponent.displayName := i; RawComponent.parentNodeId := None;
     RawComponent.childNodeIds := []; RawComponent.changeStatus := st;
     RawComponent.createdInfo := stamp "2023-05-01T10:00:00.000Z";
     RawComponent.updatedInfo := stamp "2023-05-01T10:00:00.000Z";
     RawComponent.deletedInfo := None |}.

(** The store after a fetch returned [components] and [edges]. *)
Definition fetched (components : list RawComponent.t) (edges : list Edge.t) : State :=
  FETCH_DIAGRAM_DATA_onSuccess components edges initialState.

(** The store after a fetch returned the single edge [e], which the user
    then selected. *)
Definition storeWithSelected (e : Edge.t) : State :=
  setSelectedEdgeId (Some (Edge.id e)) (fetched [component "c1" unmodified] [e]).

Definition addedEdge : Edge.t := edge "e1" "n1" "n2" (Some added) None.
Definition unmodifiedEdge : Edge.t := edge "e1" "n1" "n2" (Some unmodified) None.
Definition deletedEdge : Edge.t :=
  edge "e1" "n1" "n2" (Some deleted) (Some (stamp "2023-05-02T09:00:00.000Z")).

(** n1→n2, n2→n3, n3→n1 *)
Definition triangle : list Edge.t :=
  [edge "e1" "n1" "n2" (Some unmodified) None;
   edge "e2" "n2" "n3" (Some unmodified) None;
   edge "e3" "n3" "n1" (Some unmodified) None].

(** ** The remaining getters and the selection action *)

(** Sequencing of bodies that may throw. *)
Definition Result_bind {A B} (r : Result A) (k : A → Result B) : Result B :=
  match r with
  | Ok a => k a
  | TypeError => TypeError
  end.

(** [_.keyBy(collection, iteratee)]: a later element replaces an earlier one
    with the same key. *)
Definition keyBy {A} (f : A → string) (l : list A) : gmap string A :=
  foldl (λ m x, <[f x := x]> m) ∅ l.

(** [_.groupBy(collection, iteratee)]: every group lists its elements in
    the order of the collection. *)
Definition groupBy {A} (f : A → string) (l : list A) : gmap string (list A) :=
  foldl (λ m x, <[f x := default [] (m !! f x) ++ [x]]> m) ∅ l.

(** [_.uniq]: the first occurrence of every value, in order. *)
Definition uniq (l : list ComponentId) : list ComponentId :=
  foldl (λ acc x, if decide (x ∈ acc) then acc else acc ++ [x]) [] l.

(** [_.xor(a, b)]: the values of [a] that are not in [b], then the values
    of [b] that are not in [a], without repetition. *)
Definition xor (a b : list ComponentId) : list ComponentId :=
  uniq (list_difference a b ++ list_difference b a).

(** [selectedComponentId] *)
Definition selectedComponentId (s : State) : option ComponentId :=
  match selectedComponentIds s with
  | [componentId] => Some componentId
  | _ => None
  end.

(** [FullComponent]: the raw component ([...rc]) with the ids that
    [componentsById] adds; [icon] and [isGroup] are computed from fields
    that [RawComponent.t] leaves out. *)
Record FullComponent := mkFullComponent {
  rc : RawComponent.t;
  parentId : option ComponentId;
  childIds : list (option ComponentId)
}.

(** [_.mapValues(_.keyBy(this.rawComponentsById, (c) => c.nodeId), (c) => c.id)],
    the components taken in the key order of the finite map. *)
Definition nodeIdToComponentId (s : State) : gmap ComponentNodeId ComponentId :=
  RawComponent.id <$> keyBy RawComponent.nodeId (map_to_list (rawComponentsById s)).*2.

(** [componentsById]; an empty [parentNodeId] is falsy, and a node id that
    is not in the lookup gives [undefined] ([None]). *)
Definition componentsById (s : State) : gmap ComponentId FullComponent :=
  let nodeIdToComponentId := nodeIdToComponentId s in
  (λ rc,
     {| rc := rc;
        parentId :=
          match RawComponent.parentNodeId rc with
          | Some n => if decide (n = "") then None else nodeIdToComponentId !! n
          | None => None
          end;
        childIds := (λ nodeId, nodeIdToComponentId !! nodeId)
                      <$> RawComponent.childNodeIds rc |})
    <$> rawComponentsById s.

(** [allComponents] *)
Definition allComponents (s : State) : list FullComponent :=
  (map_to_list (componentsById s)).*2.

(** [componentsByNodeId] *)
Definition componentsByNodeId (s : State) : gmap ComponentNodeId FullComponent :=
  keyBy (λ c, RawComponent.nodeId (rc c)) (allComponents s).

(** The iteratee of [componentsByParentId]:
    [c.parentNodeId ? this.componentsByNodeId[c.parentNodeId].id : "root"]. *)
Definition parentKey (byNodeId : gmap ComponentNodeId FullComponent) (c : FullComponent)
  : Result string :=
  match RawComponent.parentNodeId (rc c) with
  | Some n =>
      if decide (n = "") then Ok "root"
      else match byNodeId !! n with
           | Some parent => Ok (RawComponent.id (rc parent))
           | None => TypeError
           end
  | None => Ok "root"
  end.

(** [componentsByParentId]: [_.groupBy] with an iteratee that may throw. *)
Definition componentsByParentId (s : State) : Result (gmap ComponentId (list FullComponent)) :=
  foldl (λ acc c,
           Result_bind acc (λ m,
           Result_bind (parentKey (componentsByNodeId s) c) (λ key,
           Ok (<[key := default [] (m !! key) ++ [c]]> m))))
        (Ok ∅) (allComponents s).

(** [processList(components, parentIds)] of [parentIdPathByComponentId];
    [parentsLookup] is threaded through, [fuel] bounds the depth of the
    recursion and [None] means the bound was hit. *)
Fixpoint processList (fuel : nat) (byParentId : gmap ComponentId (list FullComponent))
    (components : list FullComponent) (parentIds : list ComponentId)
    (parentsLookup : gmap ComponentId (list ComponentId))
  : option (gmap ComponentId (list ComponentId)) :=
  match fuel with
  | 0 => None
  | S fuel' =>
      foldl (λ acc c,
               parentsLookup ← acc;
               processList fuel' byParentId
                 (default [] (byParentId !! RawComponent.id (rc c)))
                 (parentIds ++ [RawComponent.id (rc c)])
                 (<[RawComponent.id (rc c) := parentIds]> parentsLookup))
            (Some parentsLookup) components
  end.

(** [parentIdPathByComponentId]; the walk is given one level more than
    there are components. *)
Definition parentIdPathByComponentId (s : State)
  : option (Result (gmap ComponentId (list ComponentId))) :=
  match componentsByParentId s with
  | TypeError => Some TypeError
  | Ok byParentId =>
      Ok <$> processList (S (size (rawComponentsById s))) byParentId
               (default [] (byParentId !! "root")) [] ∅
  end.

(** [edgesByFromNodeId] and [edgesByToNodeId] *)
Definition edgesByFromNodeId (s : State) : gmap ComponentNodeId (list Edge.t) :=
  groupBy Edge.fromNodeId (allEdges s).

Definition edgesByToNodeId (s : State) : gmap ComponentNodeId (list Edge.t) :=
  groupBy Edge.toNodeId (allEdges s).

(** [changeStatsSummary]: [changeStatus] is never empty, so the filter on
    [!!c.changeStatus] keeps every component. *)
Record ChangeStats := mkChangeStats {
  stats_added : nat;
  stats_deleted : nat;
  stats_modified : nat;
  stats_unmodified : nat;
  stats_total : nat
}.

Definition changeStatusName (st : ChangeStatus) : string :=
  match st with
  | added => "added"
  | deleted => "deleted"
  | modified => "modified"
  | unmodified => "unmodified"
  end.

Definition changeStatsSummary (s : State) : ChangeStats :=
  let allChanged := allComponents s in
  let grouped :=
    groupBy (λ c, changeStatusName (RawComponent.changeStatus (rc c))) allChanged in
  let count name := from_option length 0 (grouped !! name) in
  {| stats_added := count "added";
     stats_deleted := count "deleted";
     stats_modified := count "modified";
     stats_unmodified := count "unmodified";
     stats_total := length allChanged |}.

(** The argument of [setSelectedComponentId]:
    [ComponentId | ComponentId[] | null]. *)
Inductive Selection :=
| SelectNull
| SelectOne (componentId : ComponentId)
| SelectMany (componentIds : list ComponentId).

(** [setSelectedComponentId(selection, toggleMode = false)] *)
Definition setSelectedComponentId (selection : Selection) (toggleMode : bool) (s : State)
  : State :=
  let set_selection ids :=
    {| edgeObjects := edgeObjects s; rawComponentsById := rawComponentsById s;
       edgesById := edgesById s; selectedComponentIds := ids;
       selectedEdgeId := None;
       hoveredComponentId := hoveredComponentId s; hoveredEdgeId := hoveredEdgeId s |} in
  (* !selection || !selection.length *)
  let asArray :=
    match selection with
    | SelectNull => None
    | SelectOne componentId => if decide (componentId = "") then None else Some [componentId]
    | SelectMany [] => None
    | SelectMany componentIds => Some componentIds
    end in
  match asArray with
  | None => set_selection []
  | Some ids =>
      let validSelectionArray := filter (λ i, is_Some (componentsById s !! i)) ids in
      if toggleMode then set_selection (xor (selectedComponentIds s) validSelectionArray)
      else set_selection validSelectionArray
  end.

(** A parent with two children, and a component that names a missing
    parent node. *)
Definition withParent (parent : option ComponentNodeId) (c : RawComponent.t)
  : RawComponent.t :=
  {| RawComponent.id := RawComponent.id c; RawComponent.nodeId := RawComponent.nodeId c;
     RawComponent.displayName := RawComponent.displayName c;
     RawComponent.parentNodeId := parent;
     RawComponent.childNodeIds := RawComponent.childNodeIds c;
     RawComponent.changeStatus := RawComponent.changeStatus c;
     RawComponent.createdInfo := RawComponent.createdInfo c;
     RawComponent.updatedInfo := RawComponent.updatedInfo c;
     RawComponent.deletedInfo := RawComponent.deletedInfo c |}.

Definition family : list RawComponent.t :=
  [component "frame" unmodified;
   withParent (Some "node-frame") (component "a" added);
   withParent (Some "node-a") (component "b" modified)].

Definition orphan : list RawComponent.t :=
  [withParent (Some "node-gone") (component "a" added)].

(** ** Vocabulary for the tree walk *)

(** [i] is the id of a component of the group [byParentId[parent]]. *)
Definition childOfIn (byParentId : gmap ComponentId (list FullComponent))
    (parent i : ComponentId) : Prop :=
  ∃ c, c ∈ default [] (byParentId !! parent) ∧ RawComponent.id (rc c) = i.

(** [path] descends from [parent]: its first id is in the group of
    [parent], and each further id is in the group of the one before. *)
Fixpoint isPath (byParentId : gmap ComponentId (list FullComponent))
    (parent : ComponentId) (path : list ComponentId) : Prop :=
  match path with
  | [] => True
  | i :: rest => childOfIn byParentId parent i ∧ isPath byParentId i rest
  end.

(** Every component is filed under its own id, as [FETCH_DIAGRAM_DATA]
    files them. *)
Definition keyedById (s : State) : Prop :=
  ∀ k c, rawComponentsById s !! k = Some c → RawComponent.id c = k.

(** A store whose only component is parentless and has the id that
    [componentsByParentId] uses for the top-level group. *)
Definition rootNamed : list RawComponent.t := [component "root" unmodified].

End ComponentsStore.

(* ===================================================================== *)
(** * The job-state record ([U0762__status_updates.sql])                  *)
(* ===================================================================== *)

Module StatusUpdates.

(** [json] and [jsonb] values; an object is the list of its members. *)
#[warnings="-register-all"]
Inductive Json :=
| JNull
| JBool (b : bool)
| JNumber (z : Z)
| JString (s : string)
| JArray (items : list Json)
| JObject (members : list (string * Json)).

(** [j -> key] on an object. *)
Definition json_get (key : string) (j : Json) : option Json :=
  match j with
  | JObject members => (λ hit, hit.2.2) <$> list_find (λ kv, kv.1 = key) members
  | _ => None
  end.

(** [jsonb_build_object(k1, v1, k2, v2, ...)] *)
Definition jsonb_build_object (members : list (string * Json)) : Json := JObject members.

(** The composite type returned by [tenancy_json_to_columns_v1]; a column
    of SQL type [bool] or [bigint[]] may be NULL ([None]). *)
Record tenancy_record_v1 := mk_tenancy_record {
  tr_tenancy_universal : option bool;
  tr_tenancy_billing_account_ids : option (list Z);
  tr_tenancy_organization_ids : option (list Z);
  tr_tenancy_workspace_ids : option (list Z)
}.

(** A row of [status_updates]. *)
Record status_updates_row := mk_row {
  pk : Z;
  tenancy_universal : bool;
  tenancy_billing_account_ids : option (list Z);
  tenancy_organization_ids : option (list Z);
  tenancy_workspace_ids : option (list Z);
  created_at : string;
  updated_at : string;
  data : Json
}.

(** The table with the sequence behind its [bigserial] key. *)
Record Database := mk_db {
  status_updates : list status_updates_row;
  status_updates_pk_seq : Z
}.

Inductive SqlError := not_null_violation (column : string).

Definition bigint_array_to_json (a : option (list Z)) : Json :=
  match a with
  | None => JNull
  | Some l => JArray (JNumber <$> l)
  end.

(** [row_to_json(this_new_row)] *)
Definition row_to_json (r : status_updates_row) : Json :=
  JObject [("pk", JNumber (pk r));
           ("tenancy_universal", JBool (tenancy_universal r));
           ("tenancy_billing_account_ids", bigint_array_to_json (tenancy_billing_account_ids r));
           ("tenancy_organization_ids", bigint_array_to_json (tenancy_organization_ids r));
           ("tenancy_workspace_ids", bigint_array_to_json (tenancy_workspace_ids r));
           ("created_at", JString (created_at r));
           ("updated_at", JString (updated_at r));
           ("data", data r)].

Section create.
(** [tenancy_json_to_columns_v1] is defined by an earlier migration. *)
Variable tenancy_json_to_columns_v1 : Json → tenancy_record_v1.

(** [status_update_create_v1(this_attribute_value_id, this_tenancy)],
    run at transaction time [now] ([NOW()]); the result is the error the
    [INSERT] raises, or the new database with the [OUT] parameter
    [object]. *)
Definition status_update_create_v1 (now : string)
    (this_attribute_value_id : Z) (this_tenancy : Json) (db : Database)
  : SqlError + Database * Json :=
  let this_tenancy_record := tenancy_json_to_columns_v1 this_tenancy in
  let this_data :=
    jsonb_build_object
      [("attribute_value_id", JNumber this_attribute_value_id);
       ("dependent_values_metadata", JObject []);
       ("queued_dependent_value_ids", JArray []);
       ("running_dependent_value_ids", JArray []);
       ("completed_dependent_value_ids", JArray [])] in
  match tr_tenancy_universal this_tenancy_record with
  | None => inl (not_null_violation "tenancy_universal")
  | Some universal =>
      let this_new_row :=
        {| pk := status_updates_pk_seq db;
           tenancy_universal := universal;
           tenancy_billing_account_ids := tr_tenancy_billing_account_ids this_tenancy_record;
           tenancy_organization_ids := tr_tenancy_organization_ids this_tenancy_record;
           tenancy_workspace_ids := tr_tenancy_workspace_ids this_tenancy_record;
           created_at := now;
           updated_at := now;
           data := this_data |} in
      inr ({| status_updates := status_updates db ++ [this_new_row];
              status_updates_pk_seq := status_updates_pk_seq db + 1 |},
           row_to_json this_new_row)
  end.
End create.

(** ** Sample inputs *)

Definition emptyDatabase : Database :=
  {| status_updates := []; status_updates_pk_seq := 1 |}.

(** A tenancy reader for objects of the shape
    [{"tenancy_universal": b, "tenancy_workspace_ids": [..]}]. *)
Definition sample_tenancy_reader (j : Json) : tenancy_record_v1 :=
  {| tr_tenancy_universal :=
       match json_get "tenancy_universal" j with Some (JBool b) => Some b | _ => None end;
     tr_tenancy_billing_account_ids := Some [];
     tr_tenancy_organization_ids := Some [];
     tr_tenancy_workspace_ids :=
       match json_get "tenancy_workspace_ids" j with
       | Some (JArray l) =>
           Some (omap (λ x, match x with JNumber z => Some z | _ => None end) l)
       | _ => None
       end |}.

(** Every key handed out so far lies below the next value of the
    sequence. *)
Definition pksBelowSequence (db : Database) : Prop :=
  Forall (λ r, (pk r < status_updates_pk_seq db)%Z) (status_updates db).

End StatusUpdates.

(* ===================================================================== *)
(** * The workspaces store ([workspaces.store.ts])                        *)
(* ===================================================================== *)

Module WorkspacesStore.

Definition WorkspacePk := string.
Definition UserId := string.
Definition IsoDateString := string.

Inductive Role := OWNER | EDITOR.

Record AuthApiWorkspace := mkWorkspace {
  creatorUserId : string;
  displayName : string;
  id : WorkspacePk;
  pk : WorkspacePk;
  instanceUrl : string;
  role : Role
}.

Record WorkspaceExportSummary := mkExportSummary {
  export_id : string;
  createdAt : IsoDateString
}.

Record WorkspaceImportSummary := mkImportSummary {
  importRequestedByUserPk : UserId;
  workspaceExportCreatedAt : IsoDateString;
  workspaceExportCreatedBy : string;
  importedWorkspaceName : string
}.

Record State := mkState {
  workspacesByPk : gmap WorkspacePk AuthApiWorkspace;
  workspaceExports : list WorkspaceExportSummary;
  workspaceImportSummary : option WorkspaceImportSummary;
  workspaceApprovals : gmap UserId string;
  importCompletedAt : option IsoDateString;
  importCancelledAt : option IsoDateString
}.

Definition initialState : State :=
  {| workspacesByPk := ∅; workspaceExports := []; workspaceImportSummary := None;
     workspaceApprovals := ∅; importCompletedAt := None; importCancelledAt := None |}.

(** The browser's local storage, and the key the store uses in it. *)
Definition Storage := gmap string string.
Definition LOCAL_STORAGE_LAST_WORKSPACE_PK : string := "si-last-workspace-pk".

(** [selectedWorkspace], for the value [urlSelectedWorkspaceId] of the
    router getter: [_.get(this.workspacesByPk, urlSelectedWorkspaceId || "",
    null)], a plain lookup for a key without path syntax. *)
Definition selectedWorkspace (urlSelectedWorkspaceId : option WorkspacePk) (s : State)
  : option AuthApiWorkspace :=
  workspacesByPk s !! default "" urlSelectedWorkspaceId.

(** [selectedWorkspacePk]: the getter writes the pk it returns to the local
    storage. *)
Definition selectedWorkspacePk (urlSelectedWorkspaceId : option WorkspacePk)
    (s : State) (storage : Storage) : option WorkspacePk * Storage :=
  (* const pk = this.selectedWorkspace?.pk || null; *)
  let pk :=
    match selectedWorkspace urlSelectedWorkspaceId s with
    | Some w => if decide (pk w = "") then None else Some (pk w)
    | None => None
    end in
  (* if (pk) storage.setItem(LOCAL_STORAGE_LAST_WORKSPACE_PK, pk); return pk; *)
  match pk with
  | Some p => (Some p, <[LOCAL_STORAGE_LAST_WORKSPACE_PK := p]> storage)
  | None => (None, storage)
  end.

(** The value of the getter alone, for the callbacks, which read it and
    keep no handle on the storage. *)
Definition selectedWorkspacePkValue (urlSelectedWorkspaceId : option WorkspacePk)
    (s : State) : option WorkspacePk :=
  (selectedWorkspacePk urlSelectedWorkspaceId s ∅).1.

(** [getLastSelectedWorkspacePk()]:
    [storage.getItem(LOCAL_STORAGE_LAST_WORKSPACE_PK) || undefined]. *)
Definition getLastSelectedWorkspacePk (storage : Storage) : option WorkspacePk :=
  match storage !! LOCAL_STORAGE_LAST_WORKSPACE_PK with
  | Some p => if decide (p = "") then None else Some p
  | None => None
  end.

(** [onSuccess] of [FETCH_USER_WORKSPACES]: every workspace of the response
    gets [pk: w.id] and the list is keyed by [pk]. *)
Definition backfillPk (w : AuthApiWorkspace) : AuthApiWorkspace :=
  {| creatorUserId := creatorUserId w; displayName := displayName w; id := id w;
     pk := id w; instanceUrl := instanceUrl w; role := role w |}.

Definition FETCH_USER_WORKSPACES_onSuccess (response : list AuthApiWorkspace) (s : State)
  : State :=
  let renameIdList := backfillPk <$> response in
  {| workspacesByPk := ComponentsStore.keyBy pk renameIdList;
     workspaceExports := workspaceExports s;
     workspaceImportSummary := workspaceImportSummary s;
     workspaceApprovals := workspaceApprovals s;
     importCompletedAt := importCompletedAt s;
     importCancelledAt := importCancelledAt s |}.

(** The events the store subscribes to, with the payload fields the
    callbacks read. *)
Inductive RealtimeEvent :=
| WorkspaceImportBeginApprovalProcess
    (userPk : UserId) (createdAt : IsoDateString) (createdBy name : string)
| WorkspaceImportCancelApprovalProcess
| ImportWorkspaceVote (workspacePk : WorkspacePk) (userPk : UserId) (vote : string)
| WorkspaceImported.

(** The callback of each event type; [now] is [new Date().toISOString()]
    and [urlSelectedWorkspaceId] the router's value when the callback runs. *)
Definition onRealtimeEvent (now : IsoDateString)
    (urlSelectedWorkspaceId : option WorkspacePk) (event : RealtimeEvent) (s : State)
  : State :=
  match event with
  | WorkspaceImportBeginApprovalProcess userPk createdAt createdBy name =>
      {| workspacesByPk := workspacesByPk s; workspaceExports := workspaceExports s;
         workspaceImportSummary :=
           Some {| importRequestedByUserPk := userPk;
                   workspaceExportCreatedAt := createdAt;
                   workspaceExportCreatedBy := createdBy;
                   importedWorkspaceName := name |};
         workspaceApprovals := workspaceApprovals s;
         importCompletedAt := None; importCancelledAt := None |}
  | WorkspaceImportCancelApprovalProcess =>
      {| workspacesByPk := workspacesByPk s; workspaceExports := workspaceExports s;
         workspaceImportSummary := None; workspaceApprovals := ∅;
         importCompletedAt := None; importCancelledAt := Some now |}
  | ImportWorkspaceVote workspacePk userPk vote =>
      if decide (selectedWorkspacePkValue urlSelectedWorkspaceId s = Some workspacePk)
      then
        {| workspacesByPk := workspacesByPk s; workspaceExports := workspaceExports s;
           workspaceImportSummary := workspaceImportSummary s;
           workspaceApprovals := <[userPk := vote]> (workspaceApprovals s);
           importCompletedAt := importCompletedAt s;
           importCancelledAt := importCancelledAt s |}
      else s
  | WorkspaceImported =>
      {| workspacesByPk := workspacesByPk s; workspaceExports := workspaceExports s;
         workspaceImportSummary := None; workspaceApprovals := ∅;
         importCompletedAt := Some now; importCancelledAt := None |}
  end.

(** The statements [BEGIN_WORKSPACE_IMPORT] and [CANCEL_APPROVAL_PROCESS]
    run before their request, and their [onSuccess] callbacks. *)
Definition BEGIN_WORKSPACE_IMPORT_before (s : State) : State :=
  {| workspacesByPk := workspacesByPk s; workspaceExports := workspaceExports s;
     workspaceImportSummary := workspaceImportSummary s; workspaceApprovals := ∅;
     importCompletedAt := importCompletedAt s;
     importCancelledAt := importCancelledAt s |}.

Definition clearImportSummary (s : State) : State :=
  {| workspacesByPk := workspacesByPk s; workspaceExports := workspaceExports s;
     workspaceImportSummary := None; workspaceApprovals := workspaceApprovals s;
     importCompletedAt := importCompletedAt s;
     importCancelledAt := importCancelledAt s |}.

Definition BEGIN_WORKSPACE_IMPORT_onSuccess : State → State := clearImportSummary.
Definition CANCEL_APPROVAL_PROCESS_before : State → State := clearImportSummary.
Definition CANCEL_APPROVAL_PROCESS_onSuccess : State → State := clearImportSummary.

(** Everything that writes to the state of the store. *)
Inductive Step :=
| Fetched (response : list AuthApiWorkspace)
| Realtime (now : IsoDateString) (urlSelectedWorkspaceId : option WorkspacePk)
    (event : RealtimeEvent)
| BeginImport
| BeginImportSucceeded
| CancelApproval
| CancelApprovalSucceeded.

Definition step (s : State) (st : Step) : State :=
  match st with
  | Fetched response => FETCH_USER_WORKSPACES_onSuccess response s
  | Realtime now url event => onRealtimeEvent now url event s
  | BeginImport => BEGIN_WORKSPACE_IMPORT_before s
  | BeginImportSucceeded => BEGIN_WORKSPACE_IMPORT_onSuccess s
  | CancelApproval => CANCEL_APPROVAL_PROCESS_before s
  | CancelApprovalSucceeded => CANCEL_APPROVAL_PROCESS_onSuccess s
  end.

(** While an import summary is shown neither timestamp is set, and the two
    timestamps are never set together. *)
Definition importStateOk (s : State) : Prop :=
  (is_Some (workspaceImportSummary s) →
     importCompletedAt s = None ∧ importCancelledAt s = None) ∧
  ¬ (is_Some (importCompletedAt s) ∧ is_Some (importCancelledAt s)).

(** ** Sample inputs *)

Definition workspace (i name : string) : AuthApiWorkspace :=
  {| creatorUserId := "user-1"; displayName := name; id := i; pk := "";
     instanceUrl := "http://localhost:8080"; role := OWNER |}.

End WorkspacesStore.

(* ===================================================================== *)
(** * The feature-flags store ([feature_flags.store.ts])                  *)
(* ===================================================================== *)

Module FeatureFlagsStore.

(** [FLAG_MAPPING]: store key, posthog flag name. *)
Definition FLAG_MAPPING : list (string * string) :=
  [("MODULES_TAB", "modules_tab");
   ("SECRETS", "secrets");
   ("INVITE_USER", "invite_user");
   ("SECRETS_MANAGEMENT", "secrets_management");
   ("WORKSPACE_BACKUPS", "workspaceBackups");
   ("COLLABORATORS", "collaborators");
   ("MUTLIPLAYER_CHANGESET_APPLY", "multiplayer_changeset_apply_flow");
   ("ABANDON_CHANGESET", "abandon_changeset")].

(** [_.invert(object)]: value to key, a later key replacing an earlier one
    with the same value. *)
Definition invert (mapping : list (string * string)) : gmap string string :=
  foldl (λ m kv, <[kv.2 := kv.1]> m) ∅ mapping.

Definition PH_TO_STORE_FLAG_LOOKUP : gmap string string := invert FLAG_MAPPING.

(** [state: () => _.mapValues(FLAG_MAPPING, () => false)] *)
Definition initialState : gmap string bool :=
  list_to_map ((λ kv, (kv.1, false)) <$> FLAG_MAPPING).

(** The callback given to [posthog.onFeatureFlags].  A name that every
    JavaScript object inherits (["constructor"], ["toString"], ...) is found
    in the lookup object as well and makes the callback set a property that
    is no flag; the finite map leaves this out, so the model speaks for the
    flags of [FLAG_MAPPING] only. *)
Definition onFeatureFlags (phFlags : list string) (state : gmap string bool)
  : gmap string bool :=
  foldl (λ st phFlag,
           match PH_TO_STORE_FLAG_LOOKUP !! phFlag with
           | Some storeFlagKey => <[storeFlagKey := true]> st
           | None => st
           end)
        state phFlags.

End FeatureFlagsStore.

(* ===================================================================== *)
(** * Properties of the action scheduler                                  *)
(* ===================================================================== *)

Module ActionsStoreProofs.
Import ActionsStore.

(** ** The loop *)

Lemma sortedEntries_perm graph : sortedEntries graph ≡ₚ map_to_list graph.
Proof. apply merge_sort_Permutation. Qed.

Lemma elem_of_sortedEntries graph k a :
  (k, a) ∈ sortedEntries graph ↔ graph !! k = Some a.
Proof. rewrite sortedEntries_perm. apply elem_of_map_to_list. Qed.

Lemma elem_of_readyEntries graph k a :
  (k, a) ∈ readyEntries graph ↔ graph !! k = Some a ∧ parents a = [].
Proof.
  unfold readyEntries. rewrite list_elem_of_filter, elem_of_sortedEntries. simpl.
  rewrite length_zero_iff_nil. tauto.
Qed.

Lemma readyEntries_none graph :
  (∀ k a, graph !! k = Some a → parents a ≠ []) → readyEntries graph = [].
Proof.
  intros Hne. destruct (readyEntries graph) as [|[k a] l] eqn:E; [done|].
  assert ((k, a) ∈ readyEntries graph) as Hin by (rewrite E; left).
  apply elem_of_readyEntries in Hin as [Hk Hp]. by destruct (Hne k a Hk).
Qed.

Lemma whileLoop_unfold fuel acts graph :
  whileLoop (S fuel) acts graph =
    if decide (size graph = 0) then Some (acts, graph)
    else whileLoop fuel (loopBody acts graph).1 (loopBody acts graph).2.
Proof. simpl. by destruct (loopBody acts graph). Qed.

(** A round that finds no ready action changes nothing, so the loop
    condition stays true for ever. *)
Lemma whileLoop_stuck graph :
  graph ≠ ∅ → readyEntries graph = [] →
  ∀ fuel acts, whileLoop fuel acts graph = None.
Proof.
  intros Hne Hready.
  assert (size graph ≠ 0) as Hsz by (by rewrite map_size_empty_iff).
  induction fuel as [|fuel IH]; intros acts.
  - simpl. by destruct (decide _).
  - rewrite whileLoop_unfold. destruct (decide _); [done|].
    unfold loopBody. rewrite Hready. simpl. apply IH.
Qed.

Lemma whileLoop_more_fuel fuel k acts graph r :
  whileLoop fuel acts graph = Some r → whileLoop (fuel + k) acts graph = Some r.
Proof.
  revert acts graph. induction fuel as [|fuel IH]; intros acts graph.
  - simpl. destruct (decide (size graph = 0)) as [Hz|Hnz]; [|done].
    intros <-. destruct k; simpl; by destruct (decide _).
  - replace (S fuel + k) with (S (fuel + k)) by lia.
    rewrite !whileLoop_unfold. destruct (decide _); [done|]. apply IH.
Qed.

Lemma whileLoop_final_empty fuel acts graph out graph' :
  whileLoop fuel acts graph = Some (out, graph') → graph' = ∅.
Proof.
  revert acts graph. induction fuel as [|fuel IH]; intros acts graph.
  - simpl. destruct (decide (size graph = 0)) as [Hz|]; [|done].
    intros [= _ <-]. by apply map_size_empty_iff.
  - rewrite whileLoop_unfold. destruct (decide (size graph = 0)) as [Hz|].
    + intros [= _ <-]. by apply map_size_empty_iff.
    + apply IH.
Qed.

Lemma whileLoop_empty fuel acts : whileLoop fuel acts ∅ = Some (acts, ∅).
Proof. destruct fuel; simpl; by rewrite decide_True by apply map_size_empty. Qed.

(** ** Removal of a scheduled action *)

Lemma findIndex_parentsBefore removeId ps :
  match findIndex removeId ps with
  | Some index => take index ps
  | None => ps
  end = parentsBefore removeId ps.
Proof.
  unfold findIndex. induction ps as [|p ps IH]; [done|].
  simpl. destruct (decide (p = removeId)); [done|].
  destruct (list_find _ ps) as [[i x]|]; simpl in *; by f_equal.
Qed.

Lemma parents_spliceParents removeId a :
  spliceParents removeId a = set_parents (parentsBefore removeId (parents a)) a.
Proof.
  unfold spliceParents. rewrite <-findIndex_parentsBefore.
  destruct (findIndex removeId (parents a)); [done|]. by destruct a.
Qed.

Lemma parentsBefore_app removeId l1 l2 :
  removeId ∉ l1 → parentsBefore removeId (l1 ++ removeId :: l2) = l1.
Proof.
  induction l1 as [|p l1 IH]; intros Hnin; simpl.
  - by rewrite decide_True.
  - rewrite not_elem_of_cons in Hnin. destruct Hnin as [Hne Hnin].
    rewrite decide_False by done. by rewrite IH.
Qed.

Lemma parentsBefore_prefix removeId ps : parentsBefore removeId ps `prefix_of` ps.
Proof.
  induction ps as [|p ps IH]; simpl; [done|].
  destruct (decide _); [apply prefix_nil | by apply prefix_cons].
Qed.

Lemma removeAction_lookup graph removeId k :
  removeAction graph removeId !! k =
    if decide (removeId = k) then None
    else (λ a, set_parents (parentsBefore removeId (parents a)) a) <$> graph !! k.
Proof.
  unfold removeAction. rewrite lookup_fmap, lookup_delete.
  destruct (decide (removeId = k)); [done|].
  destruct (graph !! k); simpl; [|done]. by rewrite parents_spliceParents.
Qed.

Lemma dom_removeAction graph removeId :
  dom (removeAction graph removeId) = dom graph ∖ {[removeId]}.
Proof. unfold removeAction. by rewrite dom_fmap_L, dom_delete_L. Qed.

Lemma dom_foldl_removeAction removeIds graph :
  dom (foldl removeAction graph removeIds) = dom graph ∖ list_to_set removeIds.
Proof.
  revert graph. induction removeIds as [|r l IH]; intros graph; simpl.
  - set_solver.
  - rewrite IH, dom_removeAction. set_solver.
Qed.

(** ** What the loop does guarantee

    Removing an id cuts a [parents] list at its first occurrence, so an
    action becomes ready as soon as the first of its parents has been
    scheduled. *)

Lemma parentsBefore_not_elem removeId ps : removeId ∉ parentsBefore removeId ps.
Proof.
  induction ps as [|p ps IH]; simpl; [apply not_elem_of_nil|].
  destruct (decide (p = removeId)); [apply not_elem_of_nil|].
  rewrite not_elem_of_cons. split; [congruence|done].
Qed.

Lemma cutParents_prefix removeIds ps : cutParents removeIds ps `prefix_of` ps.
Proof.
  revert ps. induction removeIds as [|r rs IH]; intros ps; simpl; [done|].
  etrans; [apply IH|apply parentsBefore_prefix].
Qed.

Lemma cutParents_not_elem removeIds ps r : r ∈ removeIds → r ∉ cutParents removeIds ps.
Proof.
  revert ps. induction removeIds as [|r' rs IH]; intros ps Hr; simpl.
  - by apply elem_of_nil in Hr.
  - apply elem_of_cons in Hr as [->|Hr]; [|by apply IH].
    intros Hin. apply (elem_of_prefix _ (parentsBefore r' ps)) in Hin;
      [|apply cutParents_prefix].
    by apply parentsBefore_not_elem in Hin.
Qed.

Lemma cutParents_nil_head removeIds p ps :
  cutParents removeIds (p :: ps) = [] → p ∈ removeIds.
Proof.
  revert ps. induction removeIds as [|r rs IH]; intros ps; simpl; [done|].
  destruct (decide (p = r)) as [->|Hne]; [left|].
  intros Hcut. right. by eapply IH.
Qed.

Lemma set_parents_parents a : set_parents (parents a) a = a.
Proof. by destruct a. Qed.

Lemma foldl_removeAction_lookup removeIds graph k :
  foldl removeAction graph removeIds !! k =
    if decide (k ∈ removeIds) then None
    else (λ a, set_parents (cutParents removeIds (parents a)) a) <$> graph !! k.
Proof.
  revert graph. induction removeIds as [|r rs IH]; intros graph.
  - destruct (decide (k ∈ [])) as [Hin|_]; [by apply elem_of_nil in Hin|].
    simpl. destruct (graph !! k) as [a|]; simpl; [|done].
    by rewrite set_parents_parents.
  - change (foldl removeAction graph (r :: rs))
      with (foldl removeAction (removeAction graph r) rs).
    rewrite IH, removeAction_lookup.
    destruct (decide (k ∈ rs)) as [Hin|Hnin].
    + by rewrite decide_True by (by right).
    + destruct (decide (r = k)) as [->|Hne].
      * by rewrite decide_True by left.
      * rewrite decide_False by (rewrite elem_of_cons; naive_solver).
        by destruct (graph !! k).
Qed.

Lemma NoDup_readyEntries graph : NoDup (readyEntries graph).*1.
Proof.
  unfold readyEntries. apply (sublist_NoDup _ (sortedEntries graph).*1).
  - rewrite sortedEntries_perm. apply NoDup_fst_map_to_list.
  - apply fmap_sublist, sublist_filter.
Qed.

Lemma elem_of_readyEntries_keys graph k :
  k ∈ (readyEntries graph).*1 ↔ ∃ a, graph !! k = Some a ∧ parents a = [].
Proof.
  rewrite list_elem_of_fmap. split.
  - intros ([k' a] & -> & Hin). exists a. by apply elem_of_readyEntries.
  - intros (a & Hin). exists (k, a). split; [done|]. by apply elem_of_readyEntries.
Qed.



Section first_parent.
Variable graph0 : gmap ActionId ProposedAction.
Hypothesis graph0_keyed : wellKeyed graph0.

(** The state of the loop, [acts] pushed and [graph] left, against the map
    [graph0] the getter started from. *)
Record scheduled (acts : list ProposedAction) (graph : gmap ActionId ProposedAction)
  : Prop := {
  sch_nodup : NoDup (id <$> acts);
  sch_dom : dom graph = dom graph0 ∖ list_to_set (id <$> acts);
  sch_left : ∀ k a, graph !! k = Some a →
    ∃ a0, graph0 !! k = Some a0 ∧ a = set_parents (parents a) a0 ∧
          parents a `prefix_of` parents a0 ∧
          (∀ p, p ∈ parents a → p ∉ id <$> acts) ∧
          (parents a = [] → ∀ p ps, parents a0 = p :: ps → p ∈ id <$> acts);
  sch_out : ∀ a, a ∈ acts → ∃ a0, graph0 !! id a = Some a0 ∧ a = set_parents [] a0;
  sch_order : firstParentOrder graph0 (id <$> acts)
}.

Lemma scheduled_start : scheduled [] graph0.
Proof.
  split; simpl.
  - apply NoDup_nil_2.
  - set_solver.
  - intros k a Hk. exists a. rewrite set_parents_parents.
    repeat split; try done.
    + intros p _. apply not_elem_of_nil.
    + by intros -> p ps.
  - intros a Ha. by apply elem_of_nil in Ha.
  - by intros i k a p ps.
Qed.

Lemma scheduled_key acts graph k a :
  scheduled acts graph → graph !! k = Some a → id a = k.
Proof.
  intros Hs Hk. destruct (sch_left _ _ Hs k a Hk) as (a0 & Hk0 & -> & _).
  simpl. by apply graph0_keyed.
Qed.

Lemma readyEntries_ids acts graph :
  scheduled acts graph → id <$> (readyEntries graph).*2 = (readyEntries graph).*1.
Proof.
  intros Hs.
  assert (Forall (λ e, id e.2 = e.1) (readyEntries graph)) as Hall.
  { apply Forall_forall. intros [k a] [Hk _]%elem_of_readyEntries.
    by eapply scheduled_key. }
  induction Hall as [|[k a] l Hka _ IH]; csimpl in *; [done|]. by f_equal.
Qed.

Lemma scheduled_round acts graph :
  scheduled acts graph →
  scheduled (loopBody acts graph).1 (loopBody acts graph).2.
Proof.
  intros Hs. unfold loopBody. simpl.
  pose proof (readyEntries_ids _ _ Hs) as Hids.
  assert (∀ k, k ∈ (readyEntries graph).*1 → k ∉ id <$> acts) as Hfresh.
  { intros k (a & Hk & _)%elem_of_readyEntries_keys.
    assert (k ∈ dom graph) as Hdom by (apply elem_of_dom; eauto).
    rewrite (sch_dom _ _ Hs) in Hdom. set_solver. }
  split; rewrite ?fmap_app, ?Hids.
  - apply NoDup_app. split; [apply Hs|]. split; [|apply NoDup_readyEntries].
    intros k Hk Hr. by apply (Hfresh k).
  - rewrite dom_foldl_removeAction, (sch_dom _ _ Hs), list_to_set_app_L. set_solver.
  - intros k a. rewrite foldl_removeAction_lookup.
    destruct (decide (k ∈ (readyEntries graph).*1)) as [|Hnr]; [done|].
    destruct (graph !! k) as [a'|] eqn:Hk; simpl; [|done]. intros [= <-].
    destruct (sch_left _ _ Hs k a' Hk) as (a0 & Hk0 & Ha' & Hpre & Hnew & Hnil).
    exists a0. simpl. split; [done|]. split; [by rewrite Ha'|].
    split; [etrans; [apply cutParents_prefix|done]|]. split.
    + intros p Hp. rewrite not_elem_of_app. split.
      * apply Hnew. eapply elem_of_prefix; [done|apply cutParents_prefix].
      * intros Hr. by apply (cutParents_not_elem _ (parents a')) in Hr.
    + intros Hcut p ps Hp0. rewrite elem_of_app.
      destruct (parents a') as [|q qs] eqn:Hpa'; [left; by eapply Hnil|right].
      rewrite Hp0 in Hpre. apply prefix_cons_inv_1 in Hpre as ->.
      by eapply cutParents_nil_head.
  - intros a [Ha|Ha]%elem_of_app; [by apply Hs|].
    apply list_elem_of_fmap in Ha as ([k a'] & -> & [Hk Hnil]%elem_of_readyEntries).
    simpl. destruct (sch_left _ _ Hs k a' Hk) as (a0 & Hk0 & Ha' & _).
    exists a0. rewrite (scheduled_key _ _ _ _ Hs Hk). split; [done|].
    by rewrite Ha', Hnil.
  - intros i k a0 p ps Hi Hk0 Hp0.
    destruct (decide (i < length (id <$> acts))) as [Hlt|Hge].
    + rewrite lookup_app_l in Hi by done.
      destruct (sch_order _ _ Hs i k a0 p ps Hi Hk0 Hp0) as (j & Hj & Hjp).
      exists j. split; [done|]. by apply lookup_app_l_Some.
    + rewrite lookup_app_r in Hi by lia.
      apply list_elem_of_lookup_2, elem_of_readyEntries_keys in Hi as (a' & Hk & Hnil).
      destruct (sch_left _ _ Hs k a' Hk) as (a0' & Hk0' & _ & _ & _ & Hhead).
      assert (a0' = a0) as -> by congruence.
      destruct (list_elem_of_lookup_1 _ _ (Hhead Hnil p ps Hp0)) as [j Hj].
      exists j. split; [|by apply lookup_app_l_Some].
      apply lookup_lt_Some in Hj. lia.
Qed.

Lemma scheduled_whileLoop fuel acts graph out graph' :
  scheduled acts graph → whileLoop fuel acts graph = Some (out, graph') →
  scheduled out graph'.
Proof.
  revert acts graph. induction fuel as [|fuel IH]; intros acts graph Hs.
  - simpl. destruct (decide _); [|done]. by intros [= <- <-].
  - rewrite whileLoop_unfold. destruct (decide _); [by intros [= <- <-]|].
    by apply IH, scheduled_round.
Qed.

(** Whenever the loop returns, it has pushed every action of the map once,
    with its [parents] emptied, each after the first of its parents. *)
Lemma whileLoop_first_parent_order fuel out graph' :
  whileLoop fuel [] graph0 = Some (out, graph') →
  NoDup (id <$> out) ∧
  (∀ k, k ∈ id <$> out ↔ is_Some (graph0 !! k)) ∧
  (∀ a, a ∈ out → ∃ a0, graph0 !! id a = Some a0 ∧ a = set_parents [] a0) ∧
  firstParentOrder graph0 (id <$> out).
Proof.
  intros Hrun.
  pose proof (scheduled_whileLoop _ _ _ _ _ scheduled_start Hrun) as Hs.
  apply whileLoop_final_empty in Hrun as ->.
  split; [apply Hs|]. split; [|split; [apply Hs|apply Hs]].
  intros k. rewrite <-elem_of_dom. split.
  - intros (a & -> & Ha)%list_elem_of_fmap.
    destruct (sch_out _ _ Hs a Ha) as (a0 & Hk0 & _). apply elem_of_dom. eauto.
  - intros Hk. pose proof (sch_dom _ _ Hs) as Hdom. rewrite dom_empty_L in Hdom.
    destruct (decide (k ∈ id <$> out)) as [|Hnin]; [done|].
    assert (k ∈ dom graph0 ∖ list_to_set (id <$> out)) as Hin by set_solver.
    rewrite <-Hdom in Hin. set_solver.
Qed.

(** When no action has more than one parent, the first parent is the only
    one and the output is a topological order. *)
Lemma whileLoop_topological_single_parent fuel out graph' :
  (∀ k a, graph0 !! k = Some a → length (parents a) ≤ 1) →
  whileLoop fuel [] graph0 = Some (out, graph') →
  topological graph0 (id <$> out).
Proof.
  intros Hone Hrun i k a p Hi Hk Hp.
  destruct (whileLoop_first_parent_order _ _ _ Hrun) as (_ & _ & _ & Hord).
  specialize (Hone k a Hk).
  destruct (parents a) as [|q [|q' qs]] eqn:Hpa; simpl in Hone; [|
    |lia].
  - by apply elem_of_nil in Hp.
  - apply list_elem_of_singleton in Hp as ->. by eapply Hord.
Qed.

(** On a closed map without a cycle some action is ready in every round,
    so the loop returns within as many rounds as there are actions. *)
Lemma scheduled_progress acts graph :
  acyclic graph0 → closed graph0 → scheduled acts graph → graph ≠ ∅ →
  readyEntries graph ≠ [].
Proof.
  intros [rank Hrank] Hclosed Hs Hne.
  assert (∀ n k a, graph !! k = Some a → rank k < n →
            ∃ k' a', graph !! k' = Some a' ∧ parents a' = []) as Hmin.
  { induction n as [|n IH]; intros k a Hk Hn; [lia|].
    destruct (parents a) as [|p ps] eqn:Hpa; [by exists k, a|].
    destruct (sch_left _ _ Hs k a Hk) as (a0 & Hk0 & _ & Hpre & Hnew & _).
    assert (p ∈ parents a0) as Hp0.
    { eapply elem_of_prefix; [|done]. rewrite Hpa. left. }
    assert (p ∈ dom graph) as [b Hb]%elem_of_dom.
    { rewrite (sch_dom _ _ Hs). apply elem_of_difference. split.
      - apply elem_of_dom. by eapply Hclosed.
      - rewrite elem_of_list_to_set. apply Hnew. rewrite Hpa. left. }
    apply (IH p b Hb). specialize (Hrank k a0 p Hk0 Hp0). lia. }
  destruct (map_choose _ Hne) as (k & a & Hk).
  destruct (Hmin (S (rank k)) k a Hk) as (k' & a' & Hk' & Hnil); [lia|].
  intros Hready. assert ((k', a') ∈ readyEntries graph) as Hin
    by (by apply elem_of_readyEntries).
  rewrite Hready in Hin. by apply elem_of_nil in Hin.
Qed.

Lemma loopBody_shrinks acts graph :
  readyEntries graph ≠ [] → size (loopBody acts graph).2 < size graph.
Proof.
  intros Hready. rewrite <-!size_dom. apply subset_size.
  unfold loopBody. simpl. rewrite dom_foldl_removeAction.
  destruct (readyEntries graph) as [|[k a] l] eqn:E; [done|].
  assert (k ∈ dom graph) as Hk.
  { assert ((k, a) ∈ readyEntries graph) as Hin by (rewrite E; left).
    apply elem_of_readyEntries in Hin as [Hin _]. apply elem_of_dom. eauto. }
  simpl. set_solver.
Qed.

Lemma whileLoop_returns_acyclic :
  acyclic graph0 → closed graph0 →
  ∃ out, whileLoop (size graph0) [] graph0 = Some (out, ∅).
Proof.
  intros Hacyclic Hclosed.
  assert (∀ n acts graph, scheduled acts graph → size graph ≤ n →
            ∃ out, whileLoop n acts graph = Some (out, ∅)) as Hloop.
  { induction n as [|n IH]; intros acts graph Hs Hsize.
    - exists acts. simpl. rewrite decide_True by lia.
      by rewrite (map_size_empty_inv graph) by lia.
    - rewrite whileLoop_unfold. destruct (decide (size graph = 0)) as [Hz|Hnz].
      + exists acts. by rewrite (map_size_empty_inv graph).
      + apply IH; [by apply scheduled_round|].
        assert (graph ≠ ∅) as Hne by (by apply map_size_non_empty_iff).
        pose proof (loopBody_shrinks acts graph
                      (scheduled_progress _ _ Hacyclic Hclosed Hs Hne)). lia. }
  apply Hloop; [apply scheduled_start|done].
Qed.

End first_parent.

(** The getter on a change set whose map is keyed by id, closed and free
    of cycles. *)
Lemma proposedActions_acyclic cs :
  wellKeyed (actions cs) → closed (actions cs) → acyclic (actions cs) →
  ∃ out,
    proposedActions (size (actions cs)) (Some cs) = Some (out, Some (set_actions ∅ cs)) ∧
    NoDup (id <$> out) ∧
    (∀ k, k ∈ id <$> out ↔ is_Some (actions cs !! k)) ∧
    firstParentOrder (actions cs) (id <$> out).
Proof.
  intros Hkeyed Hclosed Hacyclic.
  destruct (whileLoop_returns_acyclic _ Hkeyed Hacyclic Hclosed) as [out Hrun].
  exists out. unfold proposedActions. rewrite Hrun. simpl. split; [done|].
  destruct (whileLoop_first_parent_order _ Hkeyed _ _ _ Hrun) as (? & ? & _ & ?).
  done.
Qed.

(** ** The sample inputs *)

Lemma graph_of_lookup_inv l k a :
  graph_of l !! k = Some a → (k, a) ∈ map_to_list (graph_of l).
Proof. apply elem_of_map_to_list. Qed.

Lemma cyclic_XY_stuck :
  graph_of cyclic_XY ≠ ∅ ∧ readyEntries (graph_of cyclic_XY) = [].
Proof.
  split; [|by vm_compute].
  intros H. apply (f_equal (λ m, m !! "X")) in H. by vm_compute in H.
Qed.

Lemma chain_ACB_acyclic : acyclic (graph_of chain_ACB).
Proof.
  exists (λ k, if decide (k = "A") then 0 else if decide (k = "C") then 1 else 2).
  intros k a p Hk%graph_of_lookup_inv Hp.
  vm_compute map_to_list in Hk.
  repeat (apply elem_of_cons in Hk as [[= -> ->]|Hk]);
    [..|by apply elem_of_nil in Hk]; simpl in Hp;
    repeat (apply elem_of_cons in Hp as [->|Hp]);
    try (by apply elem_of_nil in Hp); vm_compute; lia.
Qed.

(** C1: a cyclic action set must make the scheduler stop after a bounded
    number of steps with a CycleDetected error naming the remaining ids.
    On X(parents:[Y]), Y(parents:[X]) the getter does neither: no number
    of iterations of its [while] loop reaches the [return]. *)
Theorem proposedActions_cycle_never_returns (fuel : nat) :
  proposedActions fuel (Some (changeSet_of cyclic_XY)) = None.
Proof.
  destruct cyclic_XY_stuck as [Hne Hready].
  unfold proposedActions. simpl actions.
  by rewrite (whileLoop_stuck _ Hne Hready).
Qed.

(** The same holds for every non-empty graph without a ready action. *)
Lemma proposedActions_stuck_never_returns cs fuel :
  actions cs ≠ ∅ → (∀ k a, actions cs !! k = Some a → parents a ≠ []) →
  proposedActions fuel (Some cs) = None.
Proof.
  intros Hne Hall. unfold proposedActions.
  by rewrite (whileLoop_stuck _ Hne (readyEntries_none _ Hall)).
Qed.

(** A cycle that hangs off a ready action is not detected either: the
    truncation of [parents] dissolves it and the getter returns an order. *)
Example proposedActions_cycle_behind_root :
  (λ r : list ProposedAction * option ChangeSet, (id <$> r.1, actions <$> r.2)) <$>
    proposedActions 3 (Some (changeSet_of
      [action "X" ["Z"; "Y"]; action "Y" ["X"]; action "Z" []]))
  = Some (["Z"; "X"; "Y"], Some ∅).
Proof. by vm_compute. Qed.

(** An action that names a parent outside the map is never scheduled. *)
Example proposedActions_dangling_parent (fuel : nat) :
  proposedActions fuel (Some (changeSet_of [action "A" ["ghost"]])) = None.
Proof.
  unfold proposedActions. simpl actions. rewrite whileLoop_stuck; [done| |by vm_compute].
  intros H. apply (f_equal (λ m, m !! "A")) in H. by vm_compute in H.
Qed.

(** The example of the specification:
    A(parents:[]), B(parents:[A]), C(parents:[A]), D(parents:[B,C]). *)
Example proposedActions_diamond :
  (λ r : list ProposedAction * option ChangeSet, id <$> r.1)
    <$> proposedActions 3 (Some (changeSet_of diamond))
  = Some ["A"; "B"; "C"; "D"].
Proof. by vm_compute. Qed.

(** C2: on an acyclic action set the output must list every action after
    each of its parents.  On A(parents:[]), B(parents:[A,C]),
    C(parents:[A]), which has no cycle, the getter returns A, B, C for
    every sufficient number of iterations: B comes before its parent C,
    because removing A truncated B's parents from A onward. *)
Theorem proposedActions_chain_ACB_not_topological (k : nat) :
  acyclic (graph_of chain_ACB) ∧
  ∃ out cs',
    proposedActions (2 + k) (Some (changeSet_of chain_ACB)) = Some (out, cs') ∧
    id <$> out = ["A"; "B"; "C"] ∧
    ¬ topological (graph_of chain_ACB) (id <$> out).
Proof.
  split; [apply chain_ACB_acyclic|].
  destruct (whileLoop 2 [] (graph_of chain_ACB)) as [[out g']|] eqn:E;
    [|by vm_compute in E].
  exists out, (Some (set_actions g' (changeSet_of chain_ACB))).
  assert (id <$> out = ["A"; "B"; "C"]) as Hids.
  { vm_compute in E. by injection E as <- _. }
  split; [|split; [done|]].
  - unfold proposedActions. simpl actions.
    by rewrite (whileLoop_more_fuel 2 k _ _ _ E).
  - rewrite Hids. intros Htopo.
    destruct (Htopo 1 "B" (action "B" ["A"; "C"]) "C") as (j & Hj & Hout).
    + done.
    + by vm_compute.
    + set_solver.
    + assert (j = 0) as -> by lia. done.
Qed.

(** C10: the getter consumes the map of the selected change set.  When an
    evaluation returns, the change set is left with an empty [actions] map
    and is otherwise unchanged, so a second evaluation returns the empty
    list.  In each round the ready actions are deleted from the map, and
    removing an id replaces the [parents] of every remaining action by the
    prefix that comes before the first occurrence of that id. *)
Theorem proposedActions_consumes_change_set
    (fuel : nat) (cs : ChangeSet) (out : list ProposedAction) (cs' : ChangeSet) :
  proposedActions fuel (Some cs) = Some (out, Some cs') →
  cs' = set_actions ∅ cs ∧
  (∀ fuel', proposedActions fuel' (Some cs') = Some ([], Some cs')) ∧
  (∀ acts graph,
     dom (loopBody acts graph).2 = dom graph ∖ list_to_set (readyEntries graph).*1) ∧
  (∀ graph removeId,
     removeAction graph removeId =
       (λ a, set_parents (parentsBefore removeId (parents a)) a)
         <$> delete removeId graph) ∧
  (∀ removeId l1 l2,
     parentsBefore removeId (l1 ++ removeId :: l2) = parentsBefore removeId l1).
Proof.
  intros Hrun. unfold proposedActions in Hrun.
  destruct (whileLoop fuel [] (actions cs)) as [[out0 g']|] eqn:E; [|done].
  simpl in Hrun. injection Hrun as <- <-.
  apply whileLoop_final_empty in E as ->.
  split; [done|]. split; [|split; [|split]].
  - intros fuel'. unfold proposedActions. simpl actions.
    rewrite whileLoop_empty. simpl. done.
  - intros acts graph. unfold loopBody. simpl. apply dom_foldl_removeAction.
  - intros graph removeId. apply map_eq. intros k.
    rewrite removeAction_lookup, lookup_fmap, lookup_delete.
    by destruct (decide (removeId = k)).
  - intros removeId l1 l2. induction l1 as [|p l1 IH]; simpl.
    + by rewrite decide_True.
    + destruct (decide (p = removeId)); [done|]. by rewrite IH.
Qed.

Lemma proposedActions_consumes_change_set_witness :
  proposedActions 3 (Some (changeSet_of diamond))
    = Some (set_parents [] <$> diamond, Some (set_actions ∅ (changeSet_of diamond))) ∧
  proposedActions 3 (Some (set_actions ∅ (changeSet_of diamond)))
    = Some ([], Some (set_actions ∅ (changeSet_of diamond))).
Proof.
  assert (proposedActions 3 (Some (changeSet_of diamond))
    = Some (set_parents [] <$> diamond, Some (set_actions ∅ (changeSet_of diamond))))
    as Hrun by (by vm_compute).
  split; [exact Hrun|].
  exact (proj1 (proj2 (proposedActions_consumes_change_set 3 _ _ _ Hrun)) 3).
Defined.

End ActionsStoreProofs.

(* ===================================================================== *)
(** * Properties of the reachability getter                               *)
(* ===================================================================== *)

Module ReachabilityProofs.
Import ComponentsStore.

Lemma walkGraph_S fuel connectedNodes id connectedIds :
  walkGraph (S fuel) connectedNodes id connectedIds =
    foldl (λ acc nid,
             connectedIds ← acc;
             if decide (nid ∈ connectedIds) then Some connectedIds
             else walkGraph fuel connectedNodes nid (connectedIds ++ [nid]))
          (Some connectedIds) (default [] (connectedNodes !! id)).
Proof. reflexivity. Qed.

Lemma edgeTo_cons e edges x y :
  edgeTo (e :: edges) x y ↔
    (Edge.fromNodeId e = x ∧ Edge.toNodeId e = y) ∨ edgeTo edges x y.
Proof.
  unfold edgeTo. split.
  - intros (e' & [->|Hin]%elem_of_cons & Hx & Hy); [by left|right; eauto].
  - intros [[Hx Hy]|(e' & Hin & Hx & Hy)].
    + exists e. split; [left|done].
    + exists e'. split; [by right|done].
Qed.

Lemma addEdge_lookup m e x y :
  y ∈ default [] (addEdge m e !! x) ↔
    y ∈ default [] (m !! x) ∨ (Edge.fromNodeId e = x ∧ Edge.toNodeId e = y).
Proof.
  unfold addEdge. destruct (decide (Edge.fromNodeId e = x)) as [<-|Hne].
  - rewrite lookup_insert_eq. simpl. rewrite elem_of_app, list_elem_of_singleton.
    naive_solver.
  - rewrite lookup_insert_ne by done. naive_solver.
Qed.

Lemma foldl_addEdge_lookup edges m x y :
  y ∈ default [] (foldl addEdge m edges !! x) ↔
    y ∈ default [] (m !! x) ∨ edgeTo edges x y.
Proof.
  revert m. induction edges as [|e edges IH]; intros m; simpl.
  - split; [by left|]. intros [?|(e & Hin & _)]; [done|]. by apply elem_of_nil in Hin.
  - rewrite IH, addEdge_lookup, edgeTo_cons. tauto.
Qed.

Section walk.
Variable edges : list Edge.t.

(** The ids that can ever be pushed: the targets of the edges. *)
Let targets : gset ComponentId := list_to_set (Edge.toNodeId <$> edges).

(** The termination measure: targets not yet in [connectedIds]. *)
Let unvisited (v : list ComponentId) : nat := size (targets ∖ list_to_set v).

Lemma nextIds_spec x y :
  y ∈ default [] (connectedNodesOf edges !! x) ↔ edgeTo edges x y.
Proof.
  unfold connectedNodesOf. rewrite foldl_addEdge_lookup, lookup_empty. simpl.
  split; [|by right]. intros [Hin|?]; [|done]. by apply elem_of_nil in Hin.
Qed.

Lemma edgeTo_target x y : edgeTo edges x y → y ∈ targets.
Proof.
  intros (e & Hin & _ & <-). unfold targets.
  rewrite elem_of_list_to_set. by apply list_elem_of_fmap_2.
Qed.

Lemma unvisited_push v n :
  n ∈ targets → n ∉ v → unvisited (v ++ [n]) < unvisited v.
Proof.
  intros Ht Hv. unfold unvisited. apply subset_size.
  rewrite list_to_set_app_L. apply strict_spec_alt. split; [set_solver|].
  intros Heq. assert (n ∈ targets ∖ list_to_set v) as Hn by set_solver.
  rewrite <-Heq in Hn. set_solver.
Qed.

Lemma unvisited_mono v new : unvisited (v ++ new) ≤ unvisited v.
Proof. unfold unvisited. apply subseteq_size. rewrite list_to_set_app_L. set_solver. Qed.

Lemma size_list_to_set_le (l : list ComponentId) :
  size (list_to_set l : gset ComponentId) ≤ length l.
Proof.
  induction l as [|x l IH].
  - by rewrite list_to_set_nil, size_empty.
  - rewrite list_to_set_cons, size_union_alt, size_singleton. simpl.
    assert (size (list_to_set l ∖ {[x]} : gset ComponentId) ≤ size (list_to_set l : gset ComponentId))
      by (apply subseteq_size; set_solver).
    lia.
Qed.

Lemma unvisited_le v : unvisited v ≤ length edges.
Proof.
  unfold unvisited, targets.
  etrans; [apply (subseteq_size _ (list_to_set (Edge.toNodeId <$> edges))); set_solver|].
  etrans; [apply size_list_to_set_le|]. by rewrite length_fmap.
Qed.

(** What a completed walk over [frontier] has done to [connectedIds]. *)
Record walked (frontier v v' : list ComponentId) : Prop := {
  walked_ext : ∃ new, v' = v ++ new;
  walked_nodup : NoDup v → NoDup v';
  walked_frontier : ∀ n, n ∈ frontier → n ∈ v';
  walked_sound : ∀ x, x ∈ v' → x ∈ v ∨ ∃ n, n ∈ frontier ∧ rtc (edgeTo edges) n x;
  walked_closed : ∀ x y, x ∈ v' → x ∉ v → edgeTo edges x y → y ∈ v'
}.

Lemma walked_incl frontier v v' x : walked frontier v v' → x ∈ v → x ∈ v'.
Proof. intros [[new ->] _ _ _ _] Hx. apply elem_of_app. by left. Qed.

Lemma walked_nil v : walked [] v v.
Proof.
  split; [by exists []; rewrite app_nil_r|done| |by left|done].
  intros n Hn. by apply elem_of_nil in Hn.
Qed.

Lemma walked_skip n rest v v' :
  n ∈ v → walked rest v v' → walked (n :: rest) v v'.
Proof.
  intros Hn W. split.
  - apply W.
  - apply W.
  - intros m [->|Hm]%elem_of_cons; [by eapply walked_incl|by apply W].
  - intros x Hx. destruct (walked_sound _ _ _ W x Hx) as [?|(m & Hm & Hr)]; [by left|].
    right. exists m. split; [by right|done].
  - apply W.
Qed.

Lemma walked_push n rest v v1 v' :
  n ∉ v →
  walked (default [] (connectedNodesOf edges !! n)) (v ++ [n]) v1 →
  walked rest v1 v' →
  walked (n :: rest) v v'.
Proof.
  intros Hn W1 W2.
  assert (n ∈ v1) as Hn1.
  { eapply walked_incl; [done|]. apply elem_of_app. right. by left. }
  split.
  - destruct (walked_ext _ _ _ W1) as [new1 ->].
    destruct (walked_ext _ _ _ W2) as [new2 ->].
    exists ([n] ++ new1 ++ new2). by rewrite !app_assoc.
  - intros Hv. apply W2, W1. apply NoDup_app. split; [done|]. split.
    + intros x Hx [->|Hnil]%elem_of_cons; [done|by apply elem_of_nil in Hnil].
    + apply NoDup_singleton.
  - intros m [->|Hm]%elem_of_cons; [by eapply walked_incl|by apply W2].
  - intros x Hx.
    destruct (walked_sound _ _ _ W2 x Hx) as [Hx1|(m & Hm & Hr)].
    + destruct (walked_sound _ _ _ W1 x Hx1) as [Hxv|(m & Hm & Hr)].
      * apply elem_of_app in Hxv as [?|Hxn]; [by left|].
        apply list_elem_of_singleton in Hxn as ->.
        right. exists n. split; [left|done].
      * right. exists n. split; [left|].
        eapply rtc_l; [|done]. by apply nextIds_spec.
    + right. exists m. split; [by right|done].
  - intros x y Hx Hxv Hxy.
    destruct (decide (x ∈ v1)) as [Hx1|Hx1]; [|by eapply (walked_closed _ _ _ W2)].
    eapply walked_incl; [done|].
    destruct (decide (x = n)) as [->|Hne].
    + apply (walked_frontier _ _ _ W1). by apply nextIds_spec.
    + eapply (walked_closed _ _ _ W1); [done| |done].
      rewrite elem_of_app, list_elem_of_singleton. tauto.
Qed.

(** The [forEach] of one call, given that the nested calls behave. *)
Lemma forEach_walked fuel :
  (∀ id v, unvisited v < fuel →
     ∃ v', walkGraph fuel (connectedNodesOf edges) id v = Some v' ∧
           walked (default [] (connectedNodesOf edges !! id)) v v') →
  ∀ nextIds v,
    (∀ n, n ∈ nextIds → n ∈ targets) → unvisited v ≤ fuel →
    ∃ v',
      foldl (λ acc nid,
               connectedIds ← acc;
               if decide (nid ∈ connectedIds) then Some connectedIds
               else walkGraph fuel (connectedNodesOf edges) nid (connectedIds ++ [nid]))
            (Some v) nextIds = Some v' ∧
      walked nextIds v v'.
Proof.
  intros IHwalk. induction nextIds as [|n rest IH]; intros v Ht Hfuel.
  - exists v. split; [done|apply walked_nil].
  - simpl. destruct (decide (n ∈ v)) as [Hin|Hnin].
    + destruct (IH v) as (v' & Hrun & W); [set_solver|done|].
      exists v'. split; [done|by apply walked_skip].
    + assert (unvisited (v ++ [n]) < unvisited v) as Hlt
        by (apply unvisited_push; [apply Ht; left|done]).
      destruct (IHwalk n (v ++ [n])) as (v1 & Hrun1 & W1); [lia|].
      rewrite Hrun1.
      destruct (IH v1) as (v' & Hrun & W); [set_solver| |].
      { destruct (walked_ext _ _ _ W1) as [new ->].
        pose proof (unvisited_mono (v ++ [n]) new). lia. }
      exists v'. split; [done|by eapply walked_push].
Qed.

(** [walkGraph] returns whenever its fuel exceeds the number of targets
    still unvisited. *)
Lemma walkGraph_walked fuel id v :
  unvisited v < fuel →
  ∃ v', walkGraph fuel (connectedNodesOf edges) id v = Some v' ∧
        walked (default [] (connectedNodesOf edges !! id)) v v'.
Proof.
  revert id v. induction fuel as [|fuel IH]; intros id v Hfuel; [lia|].
  rewrite walkGraph_S. apply forEach_walked; [done| |lia].
  intros n Hn. eapply edgeTo_target. by apply nextIds_spec.
Qed.

(** The getter returns, without repetition, exactly the ids reachable from
    the root. *)
Lemma getDependentComponentsOf_reachable componentId :
  ∃ ids, getDependentComponentsOf edges componentId = Some ids ∧
         NoDup ids ∧
         ∀ x, x ∈ ids ↔ reachableFrom edges componentId x.
Proof.
  unfold getDependentComponentsOf.
  destruct (walkGraph_walked (S (length edges)) componentId [componentId])
    as (ids & Hrun & W).
  { pose proof (unvisited_le [componentId]). lia. }
  exists ids. split; [done|]. split; [apply W, NoDup_singleton|].
  assert (componentId ∈ ids) as Hroot by (eapply walked_incl; [done|left]).
  intros x. split.
  - intros Hx. destruct (walked_sound _ _ _ W x Hx) as [Hx0|(n & Hn & Hr)].
    + apply list_elem_of_singleton in Hx0 as ->. apply rtc_refl.
    + eapply rtc_l; [|done]. by apply nextIds_spec.
  - unfold reachableFrom. revert x. apply rtc_ind_r; [done|].
    intros y z _ Hyz IH.
    destruct (decide (y = componentId)) as [->|Hne].
    + apply (walked_frontier _ _ _ W). by apply nextIds_spec.
    + eapply (walked_closed _ _ _ W); [done| |done].
      by rewrite list_elem_of_singleton.
Qed.

End walk.

Lemma edgeTo_perm edges edges' x y :
  edges' ≡ₚ edges → edgeTo edges' x y → edgeTo edges x y.
Proof.
  intros Hperm (e & Hin & Hx & Hy). exists e. by rewrite <-Hperm.
Qed.

Lemma reachableFrom_perm edges edges' rootId x :
  edges' ≡ₚ edges → reachableFrom edges' rootId x ↔ reachableFrom edges rootId x.
Proof.
  intros Hperm. unfold reachableFrom. split; apply rtc_subrel; intros a b.
  - by apply edgeTo_perm.
  - by apply edgeTo_perm.
Qed.

(** C4: for every edge array and every root the reachability getter
    returns; its result holds exactly the ids related to the root by the
    reflexive-transitive closure of the from→to relation, each once; and
    enumerating the same edges in another order yields the same ids (as a
    rearrangement of the same list). *)
Theorem getDependentComponentsOf_closure (edges : list Edge.t) (rootId : ComponentId) :
  ∃ ids,
    getDependentComponentsOf edges rootId = Some ids ∧
    NoDup ids ∧
    (∀ x, x ∈ ids ↔ reachableFrom edges rootId x) ∧
    (∀ edges', edges' ≡ₚ edges →
       ∃ ids', getDependentComponentsOf edges' rootId = Some ids' ∧ ids' ≡ₚ ids).
Proof.
  destruct (getDependentComponentsOf_reachable edges rootId) as (ids & Hrun & Hnd & Hspec).
  exists ids. repeat split; try done; try by apply Hspec.
  intros edges' Hperm.
  destruct (getDependentComponentsOf_reachable edges' rootId) as (ids' & Hrun' & Hnd' & Hspec').
  exists ids'. split; [done|]. apply NoDup_Permutation; [done..|].
  intros x. by rewrite Hspec, Hspec', reachableFrom_perm.
Qed.

Lemma getDependentComponentsOf_closure_witness :
  getDependentComponentsOf triangle "n1" = Some ["n1"; "n2"; "n3"] ∧
  NoDup ["n1"; "n2"; "n3"] ∧
  ∃ ids', getDependentComponentsOf (reverse triangle) "n1" = Some ids' ∧
          ids' ≡ₚ ["n1"; "n2"; "n3"].
Proof.
  destruct (getDependentComponentsOf_closure triangle "n1")
    as (ids & Hrun & Hnd & _ & Hperm).
  assert (ids = ["n1"; "n2"; "n3"]) as -> by (vm_compute in Hrun; congruence).
  split; [done|]. split; [done|].
  apply Hperm. apply reverse_Permutation.
Defined.

(** The getter of the store, on the edges it currently holds. *)
Corollary getDependentComponents_closure (s : State) (componentId : ComponentId) :
  ∃ ids, getDependentComponents s componentId = Some ids ∧ NoDup ids ∧
         ∀ x, x ∈ ids ↔ reachableFrom (allEdges s) componentId x.
Proof. apply getDependentComponentsOf_reachable. Qed.

(** A root without outgoing edges reaches itself only. *)
Example getDependentComponentsOf_isolated :
  getDependentComponentsOf triangle "n9" = Some ["n9"].
Proof. reflexivity. Qed.

End ReachabilityProofs.

(* ===================================================================== *)
(** * Properties of the optimistic mutations                              *)
(* ===================================================================== *)

Module ComponentsStoreProofs.
Import ComponentsStore.

Lemma snapshot_edges_lookup s edgeId :
  snap_edges (snapshot s) !! edgeId = edgeAt s edgeId.
Proof. unfold snapshot, edgeAt. simpl. by rewrite lookup_omap. Qed.

Lemma edgeAt_updateEdgeObject l f s edgeId :
  edgesById s !! edgeId = Some l →
  edgeAt (updateEdgeObject l f s) edgeId = f <$> edgeAt s edgeId.
Proof.
  intros Hl. unfold edgeAt. simpl. rewrite Hl. simpl. apply lookup_alter_eq.
Qed.

(** C5: deleting an edge whose changeStatus is "added" removes its entry
    from the edge map; deleting an edge with any other changeStatus keeps
    the entry, with changeStatus "deleted" and deletedInfo holding the actor
    and the timestamp and every other field as before; restoring that edge
    afterwards leaves it with no deletedInfo and changeStatus
    "unmodified". *)
Theorem DELETE_EDGE_then_RESTORE_EDGE
    (nowTs : string) (edgeId : EdgeId) (s : State) (l : loc) (e : Edge.t) :
  edgesById s !! edgeId = Some l →
  edgeObjects s !! l = Some e →
  (Edge.changeStatus e = Some added →
     ∃ s' rb, DELETE_EDGE_optimistic nowTs edgeId s = Ok (s', rb) ∧
              edgesById s' !! edgeId = None ∧
              snap_edges (snapshot s') !! edgeId = None) ∧
  (Edge.changeStatus e ≠ Some added →
     ∃ s' rb, DELETE_EDGE_optimistic nowTs edgeId s = Ok (s', rb) ∧
              edgeAt s' edgeId =
                Some (Edge.set_deletedInfo (Some {| actor := You; timestamp := nowTs |})
                        (Edge.set_changeStatus (Some deleted) e)) ∧
              ∃ s'' rb', RESTORE_EDGE_optimistic edgeId s' = Ok (s'', rb') ∧
                         edgeAt s'' edgeId =
                           Some (Edge.set_deletedInfo None
                                   (Edge.set_changeStatus (Some unmodified) e))).
Proof.
  intros Hl He. split; intros Hst; unfold DELETE_EDGE_optimistic; rewrite Hl, He.
  - rewrite decide_True by done. eexists _, _. split; [done|].
    rewrite snapshot_edges_lookup. unfold edgeAt. simpl.
    by rewrite lookup_delete_eq.
  - rewrite decide_False by done. eexists _, _. split; [done|].
    split.
    + rewrite !edgeAt_updateEdgeObject by done. unfold edgeAt. by rewrite Hl; simpl; rewrite He.
    + unfold RESTORE_EDGE_optimistic. simpl. rewrite Hl. eexists _, _. split; [done|].
      rewrite !edgeAt_updateEdgeObject by done. unfold edgeAt. by rewrite Hl; simpl; rewrite He.
Qed.

Lemma DELETE_EDGE_then_RESTORE_EDGE_witness :
  (∃ s' rb, DELETE_EDGE_optimistic "2023-05-03T08:00:00.000Z" "e1"
              (storeWithSelected addedEdge) = Ok (s', rb) ∧
            edgesById s' !! "e1" = None ∧
            snap_edges (snapshot s') !! "e1" = None) ∧
  (∃ s' rb, DELETE_EDGE_optimistic "2023-05-03T08:00:00.000Z" "e1"
              (storeWithSelected unmodifiedEdge) = Ok (s', rb) ∧
            edgeAt s' "e1" =
              Some (edge "e1" "n1" "n2" (Some deleted)
                      (Some {| actor := You; timestamp := "2023-05-03T08:00:00.000Z" |})) ∧
            ∃ s'' rb', RESTORE_EDGE_optimistic "e1" s' = Ok (s'', rb') ∧
                       edgeAt s'' "e1" = Some unmodifiedEdge).
Proof.
  split.
  - apply (DELETE_EDGE_then_RESTORE_EDGE "2023-05-03T08:00:00.000Z" "e1"
             (storeWithSelected addedEdge) 1%positive addedEdge);
      by vm_compute.
  - apply (DELETE_EDGE_then_RESTORE_EDGE "2023-05-03T08:00:00.000Z" "e1"
             (storeWithSelected unmodifiedEdge) 1%positive unmodifiedEdge);
      by vm_compute.
Defined.

(** C6: after the optimistic creation of a connection under a provisional
    id and the arrival of a different server-assigned id, the edge map
    holds, under the server's id, the very edge that was created under the
    provisional id, with the endpoints that were asked for, and holds
    nothing under the provisional id.  (The [id] field of that edge still
    reads the provisional id.) *)
Theorem CREATE_COMPONENT_CONNECTION_takes_server_id
    (tempId : EdgeId) (nowTs : string) (from to : SocketRef)
    (connectionId : EdgeId) (s : State) :
  connectionId ≠ tempId →
  ∃ s1 rb e,
    CREATE_COMPONENT_CONNECTION_optimistic tempId nowTs from to s = Ok (s1, rb) ∧
    edgeAt s1 tempId = Some e ∧
    Edge.fromNodeId e = nodeId from ∧ Edge.fromSocketId e = socketId from ∧
    Edge.toNodeId e = nodeId to ∧ Edge.toSocketId e = socketId to ∧
    Edge.id e = tempId ∧
    edgeAt (CREATE_COMPONENT_CONNECTION_onSuccess tempId connectionId s1) connectionId
      = Some e ∧
    edgesById (CREATE_COMPONENT_CONNECTION_onSuccess tempId connectionId s1) !! tempId
      = None ∧
    snap_edges (snapshot (CREATE_COMPONENT_CONNECTION_onSuccess tempId connectionId s1))
      !! tempId = None.
Proof.
  intros Hne. unfold CREATE_COMPONENT_CONNECTION_optimistic, newEdgeObject.
  cbv beta iota zeta. eexists _, _, _. split; [done|].
  split.
  { unfold edgeAt. simpl. rewrite lookup_insert_eq. simpl. by rewrite lookup_insert_eq. }
  do 5 (split; [done|]).
  rewrite snapshot_edges_lookup.
  unfold CREATE_COMPONENT_CONNECTION_onSuccess, edgeAt. simpl.
  rewrite lookup_insert_eq. simpl.
  rewrite lookup_delete_eq, lookup_delete_ne, lookup_insert_eq by done. simpl.
  by rewrite lookup_insert_eq.
Qed.

Lemma CREATE_COMPONENT_CONNECTION_takes_server_id_witness :
  "edge-42" ≠ tempIdAt 1 ∧ tempIdAt 1 = "temp-edge-1" ∧
  ∃ s1 rb e,
    CREATE_COMPONENT_CONNECTION_optimistic (tempIdAt 1) "2023-05-03T08:00:00.000Z"
      {| nodeId := "n1"; socketId := "out" |} {| nodeId := "n3"; socketId := "in" |}
      (fetched [] triangle) = Ok (s1, rb) ∧
    edgeAt s1 (tempIdAt 1) = Some e ∧
    Edge.fromNodeId e = "n1" ∧ Edge.fromSocketId e = "out" ∧
    Edge.toNodeId e = "n3" ∧ Edge.toSocketId e = "in" ∧
    Edge.id e = tempIdAt 1 ∧
    edgeAt (CREATE_COMPONENT_CONNECTION_onSuccess (tempIdAt 1) "edge-42" s1) "edge-42"
      = Some e ∧
    edgesById (CREATE_COMPONENT_CONNECTION_onSuccess (tempIdAt 1) "edge-42" s1)
      !! tempIdAt 1 = None ∧
    snap_edges (snapshot (CREATE_COMPONENT_CONNECTION_onSuccess (tempIdAt 1) "edge-42" s1))
      !! tempIdAt 1 = None.
Proof.
  assert ("edge-42" ≠ tempIdAt 1) as Hne by (by vm_compute).
  split; [exact Hne|]. split; [by vm_compute|].
  exact (CREATE_COMPONENT_CONNECTION_takes_server_id (tempIdAt 1)
           "2023-05-03T08:00:00.000Z" {| nodeId := "n1"; socketId := "out" |}
           {| nodeId := "n3"; socketId := "in" |} "edge-42" (fetched [] triangle) Hne).
Defined.

(** ** Rolling back *)

Lemma State_eq s h c m ids sel hc he :
  edgeObjects s = h → rawComponentsById s = c → edgesById s = m →
  selectedComponentIds s = ids → selectedEdgeId s = sel →
  hoveredComponentId s = hc → hoveredEdgeId s = he →
  s = mkState h c m ids sel hc he.
Proof. destruct s. simpl. by intros -> -> -> -> -> -> ->. Qed.

(** The rollback of [RESTORE_EDGE] writes back the reference it captured,
    and that reference still leads to the object the optimistic step has
    modified: the edges of the store stay as the optimistic step left them. *)
Lemma RESTORE_EDGE_rollback_is_no_undo edgeId s s1 rb :
  RESTORE_EDGE_optimistic edgeId s = Ok (s1, rb) →
  runRollback rb s1 = Ok (set_selectedEdgeId (Some edgeId) s1) ∧
  snap_edges (snapshot (set_selectedEdgeId (Some edgeId) s1)) = snap_edges (snapshot s1).
Proof.
  unfold RESTORE_EDGE_optimistic. destruct (edgesById s !! edgeId) as [l|] eqn:Hl; [|done].
  intros [= <- <-]. simpl. split; [|done].
  f_equal. unfold set_selectedEdgeId, set_edgesById. simpl.
  by rewrite insert_id.
Qed.


Lemma keyByEdges_wellFormed edges m s :
  (∀ k l, m !! k = Some l → is_Some (edgeObjects s !! l)) →
  ∀ k l, (keyByEdges_from m s edges).1 !! k = Some l →
         is_Some (edgeObjects (keyByEdges_from m s edges).2 !! l).
Proof.
  revert m s. induction edges as [|e edges IH]; intros m s Hm; [done|].
  apply IH. intros k l. unfold newEdgeObject. simpl.
  destruct (decide (Edge.id e = k)) as [<-|Hne].
  - rewrite lookup_insert_eq. intros [= <-]. by rewrite lookup_insert_eq.
  - rewrite lookup_insert_ne by done. intros Hk%Hm.
    apply lookup_insert_is_Some'. by right.
Qed.

(** A fetch leaves the store well formed, whatever it was before. *)
Lemma FETCH_DIAGRAM_DATA_wellFormed components edges s :
  wellFormed (FETCH_DIAGRAM_DATA_onSuccess components edges s).
Proof.
  unfold FETCH_DIAGRAM_DATA_onSuccess, keyByEdges.
  pose proof (keyByEdges_wellFormed edges ∅
                (set_rawComponentsById (keyByComponents components) s)) as Hwf.
  destruct (keyByEdges_from _ _ edges) as [m s2]. simpl in *.
  intros k l Hk. apply (Hwf ltac:(by intros ?? ?) k l Hk).
Qed.

(** The rollback of an optimistic connection create removes the provisional
    edge again; the object created for it stays behind, unreachable. *)
Lemma CREATE_COMPONENT_CONNECTION_rollback_restores tempId nowTs from to s s1 rb :
  wellFormed s → edgesById s !! tempId = None →
  CREATE_COMPONENT_CONNECTION_optimistic tempId nowTs from to s = Ok (s1, rb) →
  ∃ s2, runRollback rb s1 = Ok s2 ∧ snapshot s2 = snapshot s.
Proof.
  intros Hwf Hnone. unfold CREATE_COMPONENT_CONNECTION_optimistic, newEdgeObject.
  cbv beta iota zeta. intros [= <- <-]. eexists. split; [done|].
  unfold snapshot. simpl. f_equal.
  rewrite delete_insert_id by done. apply map_eq. intros k. rewrite !lookup_omap.
  destruct (edgesById s !! k) as [l|] eqn:Hk; simpl; [|done].
  apply lookup_insert_ne. intros <-.
  destruct (Hwf k _ Hk) as [e He]. apply (is_fresh (dom (edgeObjects s))).
  apply elem_of_dom. eauto.
Qed.

(** The rollback of [DELETE_COMPONENT] undoes it when the component carried
    no [deletedInfo]. *)
Lemma DELETE_COMPONENT_rollback_restores nowTs componentId s c s1 rb :
  rawComponentsById s !! componentId = Some c →
  RawComponent.deletedInfo c = None →
  DELETE_COMPONENT_optimistic nowTs componentId s = Ok (s1, rb) →
  runRollback rb s1 = Ok s.
Proof.
  intros Hc Hdel. unfold DELETE_COMPONENT_optimistic. rewrite Hc.
  intros [= <- <-]. simpl. rewrite lookup_alter_eq, Hc. simpl. f_equal.
  symmetry. apply State_eq; simpl; try done.
  rewrite alter_alter_eq. symmetry. apply alter_id.
  intros x. rewrite Hc. intros [= <-]. destruct c. simpl in *. by subst.
Qed.

(** C3: when the remote call fails, running the rollback closure must bring
    the store back to what it was before the optimistic step.  For
    [RESTORE_EDGE] it does not: on a store whose selected edge e1 is
    "deleted" with a [deletedInfo], the optimistic step followed by its
    rollback leaves e1 "unmodified" and without [deletedInfo]. *)
Theorem RESTORE_EDGE_rollback_keeps_the_edge_restored :
  ∃ s1 rb s2,
    RESTORE_EDGE_optimistic "e1" (storeWithSelected deletedEdge) = Ok (s1, rb) ∧
    runRollback rb s1 = Ok s2 ∧
    edgeAt (storeWithSelected deletedEdge) "e1" = Some deletedEdge ∧
    edgeAt s2 "e1" = Some unmodifiedEdge ∧
    snapshot s2 ≠ snapshot (storeWithSelected deletedEdge).
Proof.
  destruct (RESTORE_EDGE_optimistic "e1" (storeWithSelected deletedEdge))
    as [[s1 rb]|] eqn:Hopt; [|by vm_compute in Hopt].
  destruct (RESTORE_EDGE_rollback_is_no_undo _ _ _ _ Hopt) as [Hrb _].
  exists s1, rb, (set_selectedEdgeId (Some "e1") s1).
  assert (edgeAt (set_selectedEdgeId (Some "e1") s1) "e1" = Some unmodifiedEdge) as Hafter.
  { vm_compute in Hopt. injection Hopt as <- _. by vm_compute. }
  assert (edgeAt (storeWithSelected deletedEdge) "e1" = Some deletedEdge) as Hbefore
    by (by vm_compute).
  repeat split; try done.
  intros Heq. apply (f_equal (λ sn, snap_edges sn !! "e1")) in Heq.
  rewrite !snapshot_edges_lookup, Hafter, Hbefore in Heq. by vm_compute in Heq.
Qed.

(** ** Rollback against a store whose entity is gone *)

Lemma runRollback_idempotent rb s s' :
  runRollback rb s = Ok s' → runRollback rb s' = Ok s'.
Proof.
  destruct rb as [tempId|edgeId l|edgeId st|edgeId l|componentId st]; simpl.
  - intros [= <-]. simpl. f_equal. unfold set_edgesById. simpl.
    by rewrite delete_delete_eq.
  - intros [= <-]. simpl. f_equal. unfold set_selectedEdgeId, set_edgesById. simpl.
    by rewrite insert_insert_eq.
  - destruct (edgesById s !! edgeId) as [l|] eqn:Hl; [|done].
    intros [= <-]. simpl. rewrite Hl. f_equal.
    unfold set_selectedEdgeId, updateEdgeObject, set_edgeObjects. simpl. f_equal.
    rewrite !alter_alter_eq. apply map_eq. intros k. rewrite !lookup_alter.
    destruct (decide (l = k)); [|done]. by destruct (edgeObjects s !! l).
  - intros [= <-]. simpl. f_equal. unfold set_selectedEdgeId, set_edgesById. simpl.
    by rewrite insert_insert_eq.
  - destruct (rawComponentsById s !! componentId) as [c|] eqn:Hc; [|done].
    intros [= <-]. simpl. rewrite lookup_alter_eq, Hc. simpl. f_equal.
    unfold set_rawComponentsById. simpl. f_equal.
    rewrite alter_alter_eq. apply map_eq. intros k. rewrite !lookup_alter.
    destruct (decide (componentId = k)); [|done].
    by destruct (rawComponentsById s !! componentId).
Qed.

Lemma CREATE_rollback_absent_noop tempId s :
  edgesById s !! tempId = None →
  runRollback (CREATE_COMPONENT_CONNECTION_rollback tempId) s = Ok s.
Proof.
  intros Hnone. simpl. f_equal. symmetry. apply State_eq; simpl; try done.
  by rewrite delete_id.
Qed.

(** C7 (as the code has it): a rollback closure that completes is
    idempotent, a second invocation leaves the store as the first one left
    it; when the edge it targets is no longer in the edge map, the rollback
    of an optimistic connection create changes nothing, whereas the
    rollbacks of the delete of an "added" edge and of an edge restore put
    the captured edge object back under its id and select it. *)
Theorem runRollback_on_absent_edge :
  (∀ rb s s', runRollback rb s = Ok s' → runRollback rb s' = Ok s') ∧
  (∀ tempId s, edgesById s !! tempId = None →
     runRollback (CREATE_COMPONENT_CONNECTION_rollback tempId) s = Ok s) ∧
  (∀ edgeId originalEdge s, edgesById s !! edgeId = None →
     ∃ s', runRollback (DELETE_EDGE_added_rollback edgeId originalEdge) s = Ok s' ∧
           runRollback (RESTORE_EDGE_rollback edgeId originalEdge) s = Ok s' ∧
           edgesById s' !! edgeId = Some originalEdge ∧
           selectedEdgeId s' = Some edgeId ∧
           s' ≠ s).
Proof.
  split; [exact runRollback_idempotent|]. split.
  - intros tempId s Hnone. simpl. f_equal. symmetry. apply State_eq; simpl; try done.
    by rewrite delete_id.
  - intros edgeId l s Hnone. simpl. eexists. split; [done|]. split; [done|].
    simpl. rewrite lookup_insert_eq. split; [done|]. split; [done|].
    intros Heq. apply (f_equal (λ st, edgesById st !! edgeId)) in Heq. simpl in Heq.
    by rewrite lookup_insert_eq, Hnone in Heq.
Qed.

Lemma runRollback_on_absent_edge_witness :
  edgesById (fetched [] triangle) !! "temp-edge-1" = None ∧
  runRollback (CREATE_COMPONENT_CONNECTION_rollback "temp-edge-1") (fetched [] triangle)
    = Ok (fetched [] triangle) ∧
  ∃ s', runRollback (DELETE_EDGE_added_rollback "temp-edge-1" 1%positive)
          (fetched [] triangle) = Ok s' ∧
        edgesById s' !! "temp-edge-1" = Some 1%positive ∧
        runRollback (DELETE_EDGE_added_rollback "temp-edge-1" 1%positive) s' = Ok s'.
Proof.
  assert (edgesById (fetched [] triangle) !! "temp-edge-1" = None) as Habsent
    by (by vm_compute).
  destruct runRollback_on_absent_edge as (Hidem & Hcreate & Hreinsert).
  split; [exact Habsent|]. split; [exact (Hcreate _ _ Habsent)|].
  destruct (Hreinsert "temp-edge-1" 1%positive _ Habsent) as (s' & Hrun & _ & Hl & _).
  exists s'. split; [exact Hrun|]. split; [exact Hl|]. exact (Hidem _ _ _ Hrun).
Defined.

(** C7 as the specification states it fails: the delete of the "added" edge
    e1 is applied optimistically, a refresh then replaces the maps by a
    diagram without e1, and the remote call fails; the rollback closure
    finds no e1 in the store and yet changes the store. *)
Lemma runRollback_after_refresh_modifies_store :
  ∃ s1 rb,
    DELETE_EDGE_optimistic "2023-05-03T08:00:00.000Z" "e1" (storeWithSelected addedEdge)
      = Ok (s1, rb) ∧
    edgesById (FETCH_DIAGRAM_DATA_onSuccess [component "c1" unmodified] [] s1) !! "e1"
      = None ∧
    runRollback rb (FETCH_DIAGRAM_DATA_onSuccess [component "c1" unmodified] [] s1)
      ≠ Ok (FETCH_DIAGRAM_DATA_onSuccess [component "c1" unmodified] [] s1).
Proof.
  destruct (DELETE_EDGE_optimistic "2023-05-03T08:00:00.000Z" "e1"
              (storeWithSelected addedEdge)) as [[s1 rb]|] eqn:Hopt;
    [|by vm_compute in Hopt].
  exists s1, rb. split; [done|].
  vm_compute in Hopt. injection Hopt as <- <-.
  split; [by vm_compute|].
  intros Heq. by vm_compute in Heq.
Qed.

(** The two remaining closures start with an unguarded property access and
    throw when their entity is gone. *)
Lemma runRollback_absent_entity_throws :
  (∀ edgeId st s, edgesById s !! edgeId = None →
     runRollback (DELETE_EDGE_other_rollback edgeId st) s = TypeError) ∧
  (∀ componentId st s, rawComponentsById s !! componentId = None →
     runRollback (DELETE_COMPONENT_rollback componentId st) s = TypeError).
Proof. split; intros k st s Hnone; simpl; by rewrite Hnone. Qed.

End ComponentsStoreProofs.

(* ===================================================================== *)
(** * Properties of the job-record creation procedure                     *)
(* ===================================================================== *)

Module StatusUpdatesProofs.
Import StatusUpdates.

(** C9: for every root attribute-value id and every tenancy whose columns
    the tenancy reader can fill (a non-NULL [tenancy_universal]), the
    creation procedure appends exactly one row to [status_updates]; the
    [data] of that row holds the attribute-value id, an empty
    [dependent_values_metadata] object and empty queued, running and
    completed id lists. *)
Theorem status_update_create_v1_inserts_empty_job
    (tenancy_json_to_columns_v1 : Json → tenancy_record_v1)
    (now : string) (this_attribute_value_id : Z) (this_tenancy : Json)
    (db : Database) (universal : bool) :
  tr_tenancy_universal (tenancy_json_to_columns_v1 this_tenancy) = Some universal →
  ∃ row db',
    status_update_create_v1 tenancy_json_to_columns_v1 now
        this_attribute_value_id this_tenancy db = inr (db', row_to_json row) ∧
    status_updates db' = status_updates db ++ [row] ∧
    length (status_updates db') = S (length (status_updates db)) ∧
    json_get "attribute_value_id" (data row) = Some (JNumber this_attribute_value_id) ∧
    json_get "dependent_values_metadata" (data row) = Some (JObject []) ∧
    json_get "queued_dependent_value_ids" (data row) = Some (JArray []) ∧
    json_get "running_dependent_value_ids" (data row) = Some (JArray []) ∧
    json_get "completed_dependent_value_ids" (data row) = Some (JArray []) ∧
    tenancy_universal row = universal ∧
    tenancy_workspace_ids row
      = tr_tenancy_workspace_ids (tenancy_json_to_columns_v1 this_tenancy).
Proof.
  intros Huniversal. unfold status_update_create_v1. rewrite Huniversal.
  eexists _, _. split; [reflexivity|]. simpl.
  split; [done|]. split; [|done].
  rewrite length_app. simpl. lia.
Qed.

Lemma status_update_create_v1_inserts_empty_job_witness :
  ∃ row db',
    status_update_create_v1 sample_tenancy_reader "2023-05-03 08:00:00+00" 42
        (JObject [("tenancy_universal", JBool false);
                  ("tenancy_workspace_ids", JArray [JNumber 7])])
        emptyDatabase = inr (db', row_to_json row) ∧
    status_updates db' = status_updates emptyDatabase ++ [row] ∧
    length (status_updates db') = S (length (status_updates emptyDatabase)) ∧
    json_get "attribute_value_id" (data row) = Some (JNumber 42) ∧
    json_get "dependent_values_metadata" (data row) = Some (JObject []) ∧
    json_get "queued_dependent_value_ids" (data row) = Some (JArray []) ∧
    json_get "running_dependent_value_ids" (data row) = Some (JArray []) ∧
    json_get "completed_dependent_value_ids" (data row) = Some (JArray []) ∧
    tenancy_universal row = false ∧
    tenancy_workspace_ids row = Some [7%Z].
Proof.
  exact (status_update_create_v1_inserts_empty_job sample_tenancy_reader
           "2023-05-03 08:00:00+00" 42
           (JObject [("tenancy_universal", JBool false);
                     ("tenancy_workspace_ids", JArray [JNumber 7])])
           emptyDatabase false eq_refl).
Defined.

(** A tenancy without a [tenancy_universal] flag violates the NOT NULL
    constraint of the table: nothing is inserted. *)
Example status_update_create_v1_null_tenancy :
  status_update_create_v1 sample_tenancy_reader "2023-05-03 08:00:00+00" 42
    (JObject []) emptyDatabase = inl (not_null_violation "tenancy_universal").
Proof. reflexivity. Qed.

End StatusUpdatesProofs.


(* ===================================================================== *)
(** * Further properties of the action scheduler                          *)
(* ===================================================================== *)

Module ActionsStoreMore.
Import ActionsStore ActionsStoreProofs.

(** The entries of a map built by [graph_of], one case per entry. *)
Ltac graph_entries H :=
  apply graph_of_lookup_inv in H; vm_compute map_to_list in H;
  repeat (apply elem_of_cons in H as [[= -> ->]|H]);
  [..|by apply elem_of_nil in H].

Ltac parent_cases H :=
  simpl in H; repeat (apply elem_of_cons in H as [->|H]);
  try (by apply elem_of_nil in H).

Lemma diamond_keyed_closed_acyclic :
  wellKeyed (graph_of diamond) ∧ closed (graph_of diamond) ∧ acyclic (graph_of diamond).
Proof.
  split; [|split].
  - intros k a Hk. graph_entries Hk; done.
  - intros k a p Hk Hp. graph_entries Hk; parent_cases Hp; eexists; by vm_compute.
  - exists (λ k, if decide (k = "A") then 0 else if decide (k = "D") then 2 else 1).
    intros k a p Hk Hp. graph_entries Hk; parent_cases Hp; vm_compute; lia.
Defined.

Lemma forest_keyed_closed_acyclic :
  wellKeyed (graph_of forest) ∧ closed (graph_of forest) ∧ acyclic (graph_of forest) ∧
  (∀ k a, graph_of forest !! k = Some a → length (parents a) ≤ 1).
Proof.
  split; [|split; [|split]].
  - intros k a Hk. graph_entries Hk; done.
  - intros k a p Hk Hp. graph_entries Hk; parent_cases Hp; eexists; by vm_compute.
  - exists (λ k, if decide (k = "A") then 0 else if decide (k = "D") then 2 else 1).
    intros k a p Hk Hp. graph_entries Hk; parent_cases Hp; vm_compute; lia.
  - intros k a Hk. graph_entries Hk; simpl; lia.
Defined.

Lemma proposedActions_acyclic_witness :
  ∃ out,
    proposedActions (size (actions (changeSet_of diamond))) (Some (changeSet_of diamond))
      = Some (out, Some (set_actions ∅ (changeSet_of diamond))) ∧
    NoDup (id <$> out) ∧
    (∀ k, k ∈ id <$> out ↔ is_Some (actions (changeSet_of diamond) !! k)) ∧
    firstParentOrder (actions (changeSet_of diamond)) (id <$> out).
Proof.
  destruct diamond_keyed_closed_acyclic as (Hk & Hc & Ha).
  exact (proposedActions_acyclic (changeSet_of diamond) Hk Hc Ha).
Defined.

(** Whenever the getter returns on a map keyed by id, it returns every
    action of the map exactly once, with its [parents] emptied and its other
    fields as they were, each action after the first of its parents. *)
Theorem proposedActions_returns_every_action_once
    (fuel : nat) (cs : ChangeSet) (out : list ProposedAction) (cs' : option ChangeSet) :
  wellKeyed (actions cs) →
  proposedActions fuel (Some cs) = Some (out, cs') →
  NoDup (id <$> out) ∧
  length out = size (actions cs) ∧
  (∀ k, k ∈ id <$> out ↔ is_Some (actions cs !! k)) ∧
  (∀ a, a ∈ out → ∃ a0, actions cs !! id a = Some a0 ∧ a = set_parents [] a0) ∧
  firstParentOrder (actions cs) (id <$> out).
Proof.
  intros Hkeyed Hrun. unfold proposedActions in Hrun.
  destruct (whileLoop fuel [] (actions cs)) as [[out0 g']|] eqn:E; [|done].
  simpl in Hrun. injection Hrun as <- _.
  destruct (whileLoop_first_parent_order _ Hkeyed _ _ _ E) as (Hnd & Hdom & Hout & Hord).
  split; [done|]. split; [|done].
  rewrite <-(length_fmap id), <-size_dom.
  rewrite <-(size_list_to_set (C := gset ActionId)) by done.
  f_equal. apply set_eq. intros k.
  by rewrite elem_of_list_to_set, Hdom, elem_of_dom.
Qed.

Lemma proposedActions_returns_every_action_once_witness :
  wellKeyed (actions (changeSet_of diamond)) ∧
  NoDup (id <$> (set_parents [] <$> diamond)) ∧
  length (set_parents [] <$> diamond) = size (actions (changeSet_of diamond)).
Proof.
  assert (wellKeyed (actions (changeSet_of diamond))) as Hk
    by apply diamond_keyed_closed_acyclic.
  assert (proposedActions 3 (Some (changeSet_of diamond))
          = Some (set_parents [] <$> diamond, Some (set_actions ∅ (changeSet_of diamond))))
    as Hrun by (by vm_compute).
  destruct (proposedActions_returns_every_action_once 3 _ _ _ Hk Hrun)
    as (Hnd & Hlen & _).
  split; [exact Hk|]. split; [exact Hnd|exact Hlen].
Defined.

(** When, besides, the map is closed and free of cycles and no action has
    more than one parent, the getter returns a topological order within as
    many rounds as there are actions. *)
Theorem proposedActions_single_parent_topological (cs : ChangeSet) :
  wellKeyed (actions cs) → closed (actions cs) → acyclic (actions cs) →
  (∀ k a, actions cs !! k = Some a → length (parents a) ≤ 1) →
  ∃ out,
    proposedActions (size (actions cs)) (Some cs) = Some (out, Some (set_actions ∅ cs)) ∧
    topological (actions cs) (id <$> out).
Proof.
  intros Hkeyed Hclosed Hacyclic Hone.
  destruct (whileLoop_returns_acyclic _ Hkeyed Hacyclic Hclosed) as [out Hrun].
  exists out. split.
  - unfold proposedActions. by rewrite Hrun.
  - by eapply whileLoop_topological_single_parent.
Qed.

Lemma proposedActions_single_parent_topological_witness :
  ∃ out,
    proposedActions (size (actions (changeSet_of forest))) (Some (changeSet_of forest))
      = Some (out, Some (set_actions ∅ (changeSet_of forest))) ∧
    topological (actions (changeSet_of forest)) (id <$> out).
Proof.
  destruct forest_keyed_closed_acyclic as (Hk & Hc & Ha & Hone).
  exact (proposedActions_single_parent_topological (changeSet_of forest) Hk Hc Ha Hone).
Defined.

Lemma proposedActions_stuck_never_returns_witness :
  actions (changeSet_of cyclic_XY) ≠ ∅ ∧
  proposedActions 1000 (Some (changeSet_of cyclic_XY)) = None.
Proof.
  assert (actions (changeSet_of cyclic_XY) ≠ ∅) as Hne by apply cyclic_XY_stuck.
  split; [exact Hne|].
  apply (proposedActions_stuck_never_returns (changeSet_of cyclic_XY) 1000 Hne).
  intros k a Hk. simpl in Hk. graph_entries Hk; done.
Defined.



Example proposedActions_parentless_order :
  (λ r : list ProposedAction * option ChangeSet, id <$> r.1)
    <$> proposedActions 1 (Some (changeSet_of parentless)) = Some ["a"; "b"; "c"].
Proof. by vm_compute. Qed.

End ActionsStoreMore.

(* ===================================================================== *)
(** * Further properties of the components store                          *)
(* ===================================================================== *)

Module ComponentsStoreMore.
Import ComponentsStore ReachabilityProofs ComponentsStoreProofs.

(** ** [_.keyBy] and [_.groupBy] *)

Lemma foldl_keyBy_lookup {A} (f : A → string) (l : list A) (m : gmap string A) k :
  foldl (λ m x, <[f x := x]> m) m l !! k =
    match last (filter (λ x, f x = k) l) with
    | Some x => Some x
    | None => m !! k
    end.
Proof.
  revert m. induction l as [|x l IH]; intros m; [done|].
  simpl. rewrite IH, filter_cons. destruct (decide (f x = k)) as [Hk|Hk].
  - destruct (filter _ l) as [|y l'] eqn:E.
    + simpl. subst k. apply lookup_insert_eq.
    + rewrite last_cons_cons. destruct (last (y :: l')) eqn:El; [done|].
      by apply last_None in El.
  - destruct (last (filter _ l)); [done|]. by rewrite lookup_insert_ne.
Qed.

Lemma keyBy_lookup {A} (f : A → string) (l : list A) k :
  keyBy f l !! k = last (filter (λ x, f x = k) l).
Proof.
  unfold keyBy. rewrite foldl_keyBy_lookup, lookup_empty. by destruct (last _).
Qed.

Lemma keyBy_lookup_Some {A} (f : A → string) (l : list A) k x :
  keyBy f l !! k = Some x → x ∈ l ∧ f x = k.
Proof.
  rewrite keyBy_lookup. intros (l' & Hl)%last_Some.
  assert (x ∈ filter (λ x, f x = k) l) as Hin.
  { rewrite Hl. apply elem_of_app. right. left. }
  by apply list_elem_of_filter in Hin as [? ?].
Qed.

Lemma keyBy_lookup_is_Some {A} (f : A → string) (l : list A) x :
  x ∈ l → is_Some (keyBy f l !! f x).
Proof.
  intros Hx. rewrite keyBy_lookup. apply last_is_Some. intros Hnil.
  assert (x ∈ filter (λ y, f y = f x) l) as Hin by (by apply list_elem_of_filter).
  rewrite Hnil in Hin. by apply elem_of_nil in Hin.
Qed.

Lemma foldl_groupBy_lookup {A} (f : A → string) (l : list A)
    (m : gmap string (list A)) k :
  default [] (foldl (λ m x, <[f x := default [] (m !! f x) ++ [x]]> m) m l !! k)
    = default [] (m !! k) ++ filter (λ x, f x = k) l ∧
  (is_Some (foldl (λ m x, <[f x := default [] (m !! f x) ++ [x]]> m) m l !! k)
     ↔ is_Some (m !! k) ∨ ∃ x, x ∈ l ∧ f x = k).
Proof.
  revert m. induction l as [|x l IH]; intros m.
  - simpl. rewrite app_nil_r. split; [done|]. split; [by left|].
    intros [?|(x & Hx & _)]; [done|]. by apply elem_of_nil in Hx.
  - simpl. destruct (IH (<[f x := default [] (m !! f x) ++ [x]]> m)) as [-> ->].
    rewrite filter_cons. destruct (decide (f x = k)) as [<-|Hne].
    + rewrite lookup_insert_eq. simpl. rewrite <-app_assoc. split; [done|].
      split; [intros _; right; exists x; split; [left|done]|].
      intros _. left. by eexists.
    + rewrite lookup_insert_ne by done. split; [done|].
      split; intros [?|(y & Hy & Hk)]; try by left.
      * right. exists y. split; [by right|done].
      * apply elem_of_cons in Hy as [->|Hy]; [done|]. right. eauto.
Qed.

Lemma groupBy_lookup {A} (f : A → string) (l : list A) k :
  default [] (groupBy f l !! k) = filter (λ x, f x = k) l ∧
  (is_Some (groupBy f l !! k) ↔ ∃ x, x ∈ l ∧ f x = k).
Proof.
  unfold groupBy. destruct (foldl_groupBy_lookup f l ∅ k) as [-> ->].
  rewrite lookup_empty. split; [done|]. split; [|by right].
  intros [[? [=]]|?]; done.
Qed.

(** ** Reachability *)

(** The result of the reachability getter begins with the root, which does
    not occur again. *)
Theorem getDependentComponentsOf_starts_with_root
    (edges : list Edge.t) (rootId : ComponentId) :
  ∃ rest, getDependentComponentsOf edges rootId = Some (rootId :: rest) ∧ rootId ∉ rest.
Proof.
  destruct (walkGraph_walked edges (S (length edges)) rootId [rootId])
    as (ids & Hrun & W).
  { pose proof (unvisited_le edges [rootId]). lia. }
  destruct (walked_ext _ _ _ _ W) as [rest ->].
  exists rest. split; [done|].
  pose proof (walked_nodup _ _ _ _ W (NoDup_singleton rootId)) as Hnd.
  by apply NoDup_cons in Hnd as [? _].
Qed.

(** Adding edges never removes an id from the result. *)
Theorem getDependentComponentsOf_monotone
    (edges edges' : list Edge.t) (rootId : ComponentId) :
  (∀ e, e ∈ edges → e ∈ edges') →
  ∃ ids ids',
    getDependentComponentsOf edges rootId = Some ids ∧
    getDependentComponentsOf edges' rootId = Some ids' ∧
    ∀ x, x ∈ ids → x ∈ ids'.
Proof.
  intros Hsub.
  destruct (getDependentComponentsOf_reachable edges rootId) as (ids & Hrun & _ & Hspec).
  destruct (getDependentComponentsOf_reachable edges' rootId) as (ids' & Hrun' & _ & Hspec').
  exists ids, ids'. split; [done|]. split; [done|].
  intros x. rewrite Hspec, Hspec'. unfold reachableFrom. apply rtc_subrel.
  intros a b (e & Hin & Ha & Hb). exists e. auto.
Qed.

Lemma getDependentComponentsOf_monotone_witness :
  ∃ ids ids',
    getDependentComponentsOf (take 1 triangle) "n1" = Some ids ∧
    getDependentComponentsOf triangle "n1" = Some ids' ∧
    ∀ x, x ∈ ids → x ∈ ids'.
Proof.
  apply (getDependentComponentsOf_monotone (take 1 triangle) triangle "n1").
  intros e He. eapply elem_of_prefix; [exact He|apply prefix_take].
Defined.

(** [edgesByFromNodeId] and [edgesByToNodeId] file every edge of the store
    under its source, respectively its target, in the order of [allEdges],
    and have no empty group. *)
Theorem edgesBy_groups (s : State) (n : ComponentNodeId) :
  default [] (edgesByFromNodeId s !! n)
    = filter (λ e, Edge.fromNodeId e = n) (allEdges s) ∧
  (is_Some (edgesByFromNodeId s !! n) ↔ ∃ e, e ∈ allEdges s ∧ Edge.fromNodeId e = n) ∧
  default [] (edgesByToNodeId s !! n)
    = filter (λ e, Edge.toNodeId e = n) (allEdges s) ∧
  (is_Some (edgesByToNodeId s !! n) ↔ ∃ e, e ∈ allEdges s ∧ Edge.toNodeId e = n).
Proof.
  destruct (groupBy_lookup Edge.fromNodeId (allEdges s) n) as [Hfrom Hfrom'].
  destruct (groupBy_lookup Edge.toNodeId (allEdges s) n) as [Hto Hto'].
  split; [exact Hfrom|]. split; [exact Hfrom'|]. split; [exact Hto|exact Hto'].
Qed.

Lemma foldl_addEdge_groups edges m n :
  default [] (foldl addEdge m edges !! n)
    = default [] (m !! n)
      ++ (Edge.toNodeId <$> filter (λ e, Edge.fromNodeId e = n) edges).
Proof.
  revert m. induction edges as [|e edges IH]; intros m; simpl.
  - by rewrite app_nil_r.
  - rewrite IH, filter_cons. unfold addEdge at 1.
    destruct (decide (Edge.fromNodeId e = n)) as [<-|Hne].
    + rewrite lookup_insert_eq. simpl. by rewrite <-app_assoc.
    + by rewrite lookup_insert_ne.
Qed.

(** The adjacency lists that [getDependentComponents] builds are the groups
    of [edgesByFromNodeId], read off at their targets. *)
Theorem connectedNodes_edgesByFromNodeId (s : State) (n : ComponentNodeId) :
  default [] (connectedNodesOf (allEdges s) !! n)
    = Edge.toNodeId <$> default [] (edgesByFromNodeId s !! n).
Proof.
  destruct (groupBy_lookup Edge.fromNodeId (allEdges s) n) as [Hfrom _].
  unfold connectedNodesOf, edgesByFromNodeId.
  etrans; [apply foldl_addEdge_groups|].
  rewrite lookup_empty. simpl. f_equal. symmetry. exact Hfrom.
Qed.

(** ** Optimistic mutations *)


Lemma CREATE_COMPONENT_CONNECTION_rollback_restores_witness :
  ∃ s1 rb s2,
    CREATE_COMPONENT_CONNECTION_optimistic (tempIdAt 1) "2023-05-03T08:00:00.000Z"
      {| nodeId := "n1"; socketId := "out" |} {| nodeId := "n3"; socketId := "in" |}
      (fetched [] triangle) = Ok (s1, rb) ∧
    runRollback rb s1 = Ok s2 ∧
    snapshot s2 = snapshot (fetched [] triangle).
Proof.
  destruct (CREATE_COMPONENT_CONNECTION_optimistic (tempIdAt 1)
              "2023-05-03T08:00:00.000Z" {| nodeId := "n1"; socketId := "out" |}
              {| nodeId := "n3"; socketId := "in" |} (fetched [] triangle))
    as [[s1 rb]|] eqn:Hopt; [|by vm_compute in Hopt].
  assert (edgesById (fetched [] triangle) !! tempIdAt 1 = None) as Hfree
    by (by vm_compute).
  destruct (CREATE_COMPONENT_CONNECTION_rollback_restores _ _ _ _ _ _ _
              (FETCH_DIAGRAM_DATA_wellFormed [] triangle initialState)
              Hfree Hopt) as (s2 & Hrb & Hsnap).
  by exists s1, rb, s2.
Defined.

Lemma DELETE_COMPONENT_rollback_restores_witness :
  ∃ s1 rb,
    DELETE_COMPONENT_optimistic "2023-05-03T08:00:00.000Z" "a" (fetched family [])
      = Ok (s1, rb) ∧
    runRollback rb s1 = Ok (fetched family []).
Proof.
  destruct (DELETE_COMPONENT_optimistic "2023-05-03T08:00:00.000Z" "a"
              (fetched family [])) as [[s1 rb]|] eqn:Hopt; [|by vm_compute in Hopt].
  exists s1, rb. split; [done|].
  apply (DELETE_COMPONENT_rollback_restores "2023-05-03T08:00:00.000Z" "a"
           (fetched family []) (withParent (Some "node-frame") (component "a" added))
           s1 rb); try done; by vm_compute.
Defined.

(** On a well-formed store each optimistic callback throws exactly when the
    entity it is called for is not in its map. *)
Theorem optimistic_throws_iff_absent (nowTs : string) (s : State) :
  wellFormed s →
  (∀ edgeId, DELETE_EDGE_optimistic nowTs edgeId s = TypeError
             ↔ edgesById s !! edgeId = None) ∧
  (∀ edgeId, RESTORE_EDGE_optimistic edgeId s = TypeError
             ↔ edgesById s !! edgeId = None) ∧
  (∀ componentId, DELETE_COMPONENT_optimistic nowTs componentId s = TypeError
                  ↔ rawComponentsById s !! componentId = None).
Proof.
  intros Hwf. split; [|split].
  - intros edgeId. unfold DELETE_EDGE_optimistic.
    destruct (edgesById s !! edgeId) as [l|] eqn:Hl; [|done].
    destruct (Hwf _ _ Hl) as [e ->]. by destruct (decide _).
  - intros edgeId. unfold RESTORE_EDGE_optimistic.
    by destruct (edgesById s !! edgeId).
  - intros componentId. unfold DELETE_COMPONENT_optimistic.
    by destruct (rawComponentsById s !! componentId).
Qed.

Lemma optimistic_throws_iff_absent_witness :
  wellFormed (fetched family triangle) ∧
  DELETE_EDGE_optimistic "2023-05-03T08:00:00.000Z" "e9" (fetched family triangle)
    = TypeError ∧
  RESTORE_EDGE_optimistic "e9" (fetched family triangle) = TypeError ∧
  DELETE_COMPONENT_optimistic "2023-05-03T08:00:00.000Z" "zz" (fetched family triangle)
    = TypeError.
Proof.
  pose proof (FETCH_DIAGRAM_DATA_wellFormed family triangle initialState) as Hwf.
  destruct (optimistic_throws_iff_absent "2023-05-03T08:00:00.000Z" _ Hwf)
    as (Hdel & Hres & Hcomp).
  split; [exact Hwf|]. split; [|split].
  - apply Hdel. by vm_compute.
  - apply Hres. by vm_compute.
  - apply Hcomp. by vm_compute.
Defined.

(** ** Refresh *)

Lemma keyByEdges_from_frame edges m s :
  ∃ h, (keyByEdges_from m s edges).2 = set_edgeObjects h s.
Proof.
  revert m s. induction edges as [|e edges IH]; intros m s.
  - exists (edgeObjects s). by destruct s.
  - simpl. destruct (IH (<[Edge.id e := fresh (dom (edgeObjects s))]> m)
                        (set_edgeObjects (<[fresh (dom (edgeObjects s)) := e]>
                                            (edgeObjects s)) s)) as [h Hh].
    exists h. by rewrite Hh.
Qed.

Lemma keyByEdges_from_snapshot edges m s :
  (∀ k l, m !! k = Some l → is_Some (edgeObjects s !! l)) →
  omap (λ l, edgeObjects (keyByEdges_from m s edges).2 !! l)
       (keyByEdges_from m s edges).1
    = foldl (λ M e, <[Edge.id e := e]> M) (omap (λ l, edgeObjects s !! l) m) edges.
Proof.
  revert m s. induction edges as [|e edges IH]; intros m s Hm; [done|].
  simpl. rewrite IH.
  - f_equal. simpl. apply map_eq. intros k. rewrite lookup_omap.
    destruct (decide (Edge.id e = k)) as [<-|Hne].
    + rewrite !lookup_insert_eq. simpl. by rewrite lookup_insert_eq.
    + rewrite !lookup_insert_ne, lookup_omap by done.
      destruct (m !! k) as [l|] eqn:Hk; simpl; [|done].
      apply lookup_insert_ne. intros <-.
      destruct (Hm _ _ Hk) as [x Hx]. apply (is_fresh (dom (edgeObjects s))).
      apply elem_of_dom. eauto.
  - intros k l. simpl. destruct (decide (Edge.id e = k)) as [<-|Hne].
    + rewrite lookup_insert_eq. intros [= <-]. by rewrite lookup_insert_eq.
    + rewrite lookup_insert_ne by done. intros Hk%Hm.
      apply lookup_insert_is_Some'. by right.
Qed.

Lemma keyByEdges_from_other_key edges m s k :
  k ∉ Edge.id <$> edges → (keyByEdges_from m s edges).1 !! k = m !! k.
Proof.
  revert m s. induction edges as [|e edges IH]; intros m s Hk; [done|].
  simpl. rewrite fmap_cons, not_elem_of_cons in Hk. destruct Hk as [Hne Hk].
  rewrite IH by done. by apply lookup_insert_ne.
Qed.

(** After a fetch the store shows the response and nothing else: every id
    leads to the last component, respectively edge, of the response that
    carries it.  The selection is left as it was, whether or not the
    selected entities are still there. *)
Theorem FETCH_DIAGRAM_DATA_shows_response
    (components : list RawComponent.t) (edges : list Edge.t) (s : State) :
  (∀ edgeId,
     edgeAt (FETCH_DIAGRAM_DATA_onSuccess components edges s) edgeId
       = last (filter (λ e, Edge.id e = edgeId) edges)) ∧
  (∀ componentId,
     rawComponentsById (FETCH_DIAGRAM_DATA_onSuccess components edges s) !! componentId
       = last (filter (λ c, RawComponent.id c = componentId) components)) ∧
  selectedEdgeId (FETCH_DIAGRAM_DATA_onSuccess components edges s) = selectedEdgeId s ∧
  selectedComponentIds (FETCH_DIAGRAM_DATA_onSuccess components edges s)
    = selectedComponentIds s.
Proof.
  unfold FETCH_DIAGRAM_DATA_onSuccess, keyByEdges.
  set (s1 := set_rawComponentsById (keyByComponents components) s).
  assert (∀ k l, (∅ : gmap EdgeId loc) !! k = Some l → is_Some (edgeObjects s1 !! l))
    as Hempty by (intros k l Hk; by rewrite lookup_empty in Hk).
  pose proof (keyByEdges_from_snapshot edges ∅ s1 Hempty) as Hsnap.
  destruct (keyByEdges_from_frame edges ∅ s1) as [h Hh].
  destruct (keyByEdges_from ∅ s1 edges) as [m s2]. simpl in Hh. subst s2.
  simpl in Hsnap. split; [|split; [|done]].
  - intros edgeId. rewrite <-snapshot_edges_lookup. unfold snapshot. simpl.
    rewrite Hsnap, omap_empty.
    rewrite (foldl_keyBy_lookup Edge.id edges ∅ edgeId), lookup_empty.
    by destruct (last _).
  - intros componentId. simpl. unfold keyByComponents.
    rewrite (foldl_keyBy_lookup RawComponent.id components ∅ componentId), lookup_empty.
    by destruct (last _).
Qed.

(** When the answer to a connection create, success or failure, arrives
    after a refresh that does not hold the provisional id, it leaves the
    refreshed store as it is. *)
Theorem CREATE_COMPONENT_CONNECTION_answer_after_refresh
    (tempId connectionId : EdgeId)
    (components : list RawComponent.t) (edges : list Edge.t) (s : State) :
  tempId ∉ Edge.id <$> edges →
  CREATE_COMPONENT_CONNECTION_onSuccess tempId connectionId
      (FETCH_DIAGRAM_DATA_onSuccess components edges s)
    = FETCH_DIAGRAM_DATA_onSuccess components edges s ∧
  runRollback (CREATE_COMPONENT_CONNECTION_rollback tempId)
      (FETCH_DIAGRAM_DATA_onSuccess components edges s)
    = Ok (FETCH_DIAGRAM_DATA_onSuccess components edges s).
Proof.
  intros Hk.
  assert (edgesById (FETCH_DIAGRAM_DATA_onSuccess components edges s) !! tempId = None)
    as Hnone.
  { unfold FETCH_DIAGRAM_DATA_onSuccess, keyByEdges.
    pose proof (keyByEdges_from_other_key edges ∅
                  (set_rawComponentsById (keyByComponents components) s) tempId Hk) as H.
    destruct (keyByEdges_from _ _ edges) as [m s2]. simpl in *.
    by rewrite H, lookup_empty. }
  split.
  - unfold CREATE_COMPONENT_CONNECTION_onSuccess. by rewrite Hnone.
  - by apply CREATE_rollback_absent_noop.
Qed.

Lemma CREATE_COMPONENT_CONNECTION_answer_after_refresh_witness :
  CREATE_COMPONENT_CONNECTION_onSuccess (tempIdAt 1) "edge-42"
      (FETCH_DIAGRAM_DATA_onSuccess family triangle (storeWithSelected addedEdge))
    = FETCH_DIAGRAM_DATA_onSuccess family triangle (storeWithSelected addedEdge) ∧
  runRollback (CREATE_COMPONENT_CONNECTION_rollback (tempIdAt 1))
      (FETCH_DIAGRAM_DATA_onSuccess family triangle (storeWithSelected addedEdge))
    = Ok (FETCH_DIAGRAM_DATA_onSuccess family triangle (storeWithSelected addedEdge)).
Proof.
  apply CREATE_COMPONENT_CONNECTION_answer_after_refresh.
  vm_compute. intros Hin.
  repeat (apply elem_of_cons in Hin as [[=]|Hin]). by apply elem_of_nil in Hin.
Defined.

(** ** Selection *)

Lemma componentsById_is_Some s i :
  is_Some (componentsById s !! i) ↔ is_Some (rawComponentsById s !! i).
Proof. unfold componentsById. rewrite lookup_fmap. apply fmap_is_Some. Qed.

Lemma foldl_uniq_spec (l acc : list ComponentId) :
  NoDup acc →
  NoDup (foldl (λ acc x, if decide (x ∈ acc) then acc else acc ++ [x]) acc l) ∧
  ∀ x, x ∈ foldl (λ acc x, if decide (x ∈ acc) then acc else acc ++ [x]) acc l
       ↔ x ∈ acc ∨ x ∈ l.
Proof.
  revert acc. induction l as [|y l IH]; intros acc Hnd; simpl.
  - split; [done|]. intros x. rewrite elem_of_nil. tauto.
  - destruct (decide (y ∈ acc)) as [Hin|Hnin].
    + destruct (IH acc Hnd) as [Hnd' Hel]. split; [done|].
      intros x. rewrite Hel, elem_of_cons. naive_solver.
    + destruct (IH (acc ++ [y])) as [Hnd' Hel].
      { apply NoDup_app. split; [done|]. split; [|apply NoDup_singleton].
        intros x Hx ->%list_elem_of_singleton. done. }
      split; [done|]. intros x.
      rewrite Hel, elem_of_app, list_elem_of_singleton, elem_of_cons. tauto.
Qed.

Lemma uniq_spec l : NoDup (uniq l) ∧ ∀ x, x ∈ uniq l ↔ x ∈ l.
Proof.
  destruct (foldl_uniq_spec l [] (NoDup_nil_2)) as [Hnd Hel]. split; [done|].
  intros x. unfold uniq. rewrite Hel, elem_of_nil. tauto.
Qed.

Lemma elem_of_xor a b x : x ∈ xor a b ↔ (x ∈ a ∧ x ∉ b) ∨ (x ∈ b ∧ x ∉ a).
Proof.
  unfold xor. destruct (uniq_spec (list_difference a b ++ list_difference b a)) as [_ ->].
  by rewrite elem_of_app, !list_elem_of_difference.
Qed.

(** Without toggle mode the action replaces the selection by those of the
    given ids that are components of the store, in the order given, and
    clears the edge selection; selecting one id makes it the selected
    component exactly when it is a component. *)
Theorem setSelectedComponentId_replaces (s : State) :
  (∀ selection toggleMode,
     selectedEdgeId (setSelectedComponentId selection toggleMode s) = None) ∧
  (∀ componentIds,
     selectedComponentIds (setSelectedComponentId (SelectMany componentIds) false s)
       = filter (λ i, is_Some (rawComponentsById s !! i)) componentIds) ∧
  (∀ componentId,
     selectedComponentId (setSelectedComponentId (SelectOne componentId) false s)
       = if decide (componentId ≠ "" ∧ is_Some (rawComponentsById s !! componentId))
         then Some componentId else None).
Proof.
  split; [|split].
  - intros selection toggleMode. unfold setSelectedComponentId.
    repeat case_match; done.
  - intros ids. unfold setSelectedComponentId.
    destruct ids as [|i ids]; [done|]. simpl selectedComponentIds.
    apply list_filter_iff. intros x. apply componentsById_is_Some.
  - intros i. unfold setSelectedComponentId, selectedComponentId.
    destruct (decide (i = "")) as [->|Hne]; simpl selectedComponentIds.
    + by case_decide as Hd; [destruct Hd as [? _]|].
    + rewrite filter_cons, filter_nil.
      destruct (decide (is_Some (componentsById s !! i))) as [Hi|Hi];
        rewrite componentsById_is_Some in Hi;
        case_decide as Hd; try done.
      * destruct Hd. by split.
      * by destruct Hd as [_ ?].
Qed.

(** In toggle mode, toggling the same non-empty selection twice gives back
    the ids that were selected (as a rearrangement, when no id was selected
    twice).  An empty selection clears instead, toggle mode or not. *)
Theorem setSelectedComponentId_toggle_twice (selection : Selection) (s : State) :
  NoDup (selectedComponentIds s) →
  match selection with
  | SelectNull => False
  | SelectOne componentId => componentId ≠ ""
  | SelectMany componentIds => componentIds ≠ []
  end →
  selectedComponentIds
    (setSelectedComponentId selection true (setSelectedComponentId selection true s))
    ≡ₚ selectedComponentIds s.
Proof.
  intros Hnd Hsel.
  assert (∃ ids,
            ∀ s0, rawComponentsById s0 = rawComponentsById s →
              selectedComponentIds (setSelectedComponentId selection true s0)
              = xor (selectedComponentIds s0)
                    (filter (λ i, is_Some (rawComponentsById s !! i)) ids) ∧
              rawComponentsById (setSelectedComponentId selection true s0)
              = rawComponentsById s) as [ids Hstep].
  { destruct selection as [|i|[|i ids]]; try done.
    - exists [i]. intros s0 Hraw. unfold setSelectedComponentId.
      rewrite decide_False by done. simpl. split; [|done]. f_equal.
      apply list_filter_iff. intros x. by rewrite componentsById_is_Some, Hraw.
    - exists (i :: ids). intros s0 Hraw. unfold setSelectedComponentId.
      simpl. split; [|done]. f_equal.
      apply list_filter_iff. intros x. by rewrite componentsById_is_Some, Hraw. }
  destruct (Hstep s eq_refl) as [Hsel1 Hraw1].
  destruct (Hstep _ Hraw1) as [Hsel2 _].
  rewrite Hsel2, Hsel1. apply NoDup_Permutation; [apply uniq_spec|done|].
  intros x. rewrite !elem_of_xor.
  destruct (decide (x ∈ filter (λ i, is_Some (rawComponentsById s !! i)) ids));
    destruct (decide (x ∈ selectedComponentIds s)); tauto.
Qed.

Lemma setSelectedComponentId_toggle_twice_witness :
  selectedComponentIds
    (setSelectedComponentId (SelectMany ["a"; "zz"; "b"]) true
       (setSelectedComponentId (SelectMany ["a"; "zz"; "b"]) true
          (setSelectedComponentId (SelectOne "a") false (fetched family []))))
    ≡ₚ ["a"].
Proof.
  apply (setSelectedComponentId_toggle_twice (SelectMany ["a"; "zz"; "b"])
           (setSelectedComponentId (SelectOne "a") false (fetched family []))).
  - vm_compute. apply NoDup_singleton.
  - done.
Defined.

Example setSelectedComponentId_null_clears_in_toggle_mode :
  selectedComponentIds
    (setSelectedComponentId SelectNull true
       (setSelectedComponentId (SelectOne "a") false (fetched family []))) = [].
Proof. reflexivity. Qed.

(** ** Change statistics *)

Lemma length_by_changeStatus (l : list FullComponent) :
  length l =
    length (filter (λ c, changeStatusName (RawComponent.changeStatus (rc c)) = "added") l)
    + length (filter (λ c, changeStatusName (RawComponent.changeStatus (rc c)) = "deleted") l)
    + length (filter (λ c, changeStatusName (RawComponent.changeStatus (rc c)) = "modified") l)
    + length (filter (λ c, changeStatusName (RawComponent.changeStatus (rc c)) = "unmodified") l).
Proof.
  induction l as [|c l IH]; [done|].
  rewrite !filter_cons. simpl length at 1. rewrite IH.
  destruct (RawComponent.changeStatus (rc c)); simpl;
    repeat (case_decide; try done); simpl; lia.
Qed.

(** The four counts of [changeStatsSummary] add up to its total, which is
    the number of components of the store. *)
Theorem changeStatsSummary_adds_up (s : State) :
  stats_total (changeStatsSummary s)
    = stats_added (changeStatsSummary s) + stats_deleted (changeStatsSummary s)
      + stats_modified (changeStatsSummary s) + stats_unmodified (changeStatsSummary s) ∧
  stats_total (changeStatsSummary s) = size (rawComponentsById s).
Proof.
  unfold changeStatsSummary. simpl. split.
  - assert (∀ name,
      from_option length 0
        (groupBy (λ c, changeStatusName (RawComponent.changeStatus (rc c)))
                 (allComponents s) !! name)
      = length (filter (λ c, changeStatusName (RawComponent.changeStatus (rc c)) = name)
                       (allComponents s))) as Hcount.
    { intros name.
      destruct (groupBy_lookup (λ c, changeStatusName (RawComponent.changeStatus (rc c)))
                  (allComponents s) name) as [<- _].
      by destruct (groupBy _ _ !! name). }
    rewrite !Hcount. apply length_by_changeStatus.
  - unfold allComponents, componentsById.
    by rewrite length_fmap, length_map_to_list, map_size_fmap.
Qed.

End ComponentsStoreMore.

(* ===================================================================== *)
(** * Properties of the workspaces store                                  *)
(* ===================================================================== *)

Module WorkspacesStoreProofs.
Import WorkspacesStore.

(** After the workspaces were fetched, every entry of [workspacesByPk] is a
    workspace of the response with its [pk] backfilled from its [id] and is
    filed under that id, and every workspace of the response has an entry
    under its id. *)
Theorem FETCH_USER_WORKSPACES_keyed (response : list AuthApiWorkspace) (s : State) :
  (∀ p w, workspacesByPk (FETCH_USER_WORKSPACES_onSuccess response s) !! p = Some w →
          pk w = p ∧ id w = p ∧ ∃ w0, w0 ∈ response ∧ w = backfillPk w0) ∧
  (∀ w0, w0 ∈ response →
         is_Some (workspacesByPk (FETCH_USER_WORKSPACES_onSuccess response s) !! id w0)).
Proof.
  simpl. split.
  - intros p w [(w0 & -> & Hw0)%list_elem_of_fmap Hp]%ComponentsStoreMore.keyBy_lookup_Some.
    split; [done|]. split; [done|]. by exists w0.
  - intros w0 Hw0.
    apply (ComponentsStoreMore.keyBy_lookup_is_Some pk _ (backfillPk w0)).
    by apply list_elem_of_fmap_2.
Qed.

Lemma FETCH_USER_WORKSPACES_keyed_witness :
  is_Some (workspacesByPk
             (FETCH_USER_WORKSPACES_onSuccess
                [workspace "ws-1" "first"; workspace "ws-2" "second"] initialState)
           !! "ws-2").
Proof.
  apply (proj2 (FETCH_USER_WORKSPACES_keyed
                  [workspace "ws-1" "first"; workspace "ws-2" "second"] initialState)
               (workspace "ws-2" "second")).
  right. left.
Defined.

(** The pk returned by [selectedWorkspacePk] is the non-empty pk of the
    workspace filed under the id of the URL, and it is the one that
    [getLastSelectedWorkspacePk] reads back; when the getter returns null it
    leaves the storage alone. *)
Theorem selectedWorkspacePk_remembered
    (urlSelectedWorkspaceId : option WorkspacePk) (s : State) (storage : Storage) :
  match selectedWorkspacePk urlSelectedWorkspaceId s storage with
  | (Some p, storage') =>
      getLastSelectedWorkspacePk storage' = Some p ∧ p ≠ "" ∧
      ∃ w, workspacesByPk s !! default "" urlSelectedWorkspaceId = Some w ∧ pk w = p
  | (None, storage') => storage' = storage
  end.
Proof.
  unfold selectedWorkspacePk, selectedWorkspace.
  destruct (workspacesByPk s !! default "" urlSelectedWorkspaceId) as [w|]; [|done].
  destruct (decide (pk w = "")) as [|Hne]; [done|].
  split; [|split; [done|by exists w]].
  unfold getLastSelectedWorkspacePk.
  replace (<[LOCAL_STORAGE_LAST_WORKSPACE_PK := pk w]> storage
             !! LOCAL_STORAGE_LAST_WORKSPACE_PK) with (Some (pk w))
    by (symmetry; apply lookup_insert_eq).
  by rewrite decide_False.
Qed.

Lemma step_importStateOk s st : importStateOk s → importStateOk (step s st).
Proof.
  intros [Hsum Hex].
  assert (∀ A (x : A), ¬ is_Some (@None A)) as Hnone by (intros A x [? [=]]).
  destruct st as [response|now url event| | | |]; simpl.
  - done.
  - destruct event as [userPk createdAt createdBy name| |workspacePk userPk vote|]; simpl.
    + split; [done|]. by intros [[? [=]] _].
    + split; [by intros [? [=]]|]. by intros [[? [=]] _].
    + by destruct (decide _).
    + split; [by intros [? [=]]|]. by intros [_ [? [=]]].
  - done.
  - split; [by intros [? [=]]|done].
  - split; [by intros [? [=]]|done].
  - split; [by intros [? [=]]|done].
Qed.

(** Whatever the store receives, fetches, realtime events and its own
    actions in any order, an import summary is never shown together with a
    completion or cancellation time, and the two times are never set
    together. *)
Theorem steps_importStateOk (steps : list Step) (s : State) :
  importStateOk s → importStateOk (foldl step s steps).
Proof.
  revert s. induction steps as [|st steps IH]; intros s Hs; [done|].
  simpl. by apply IH, step_importStateOk.
Qed.

Lemma steps_importStateOk_witness :
  importStateOk initialState ∧
  importStateOk
    (foldl step initialState
       [Fetched [workspace "ws-1" "first"];
        Realtime "2023-05-03T08:00:00.000Z" (Some "ws-1")
          (WorkspaceImportBeginApprovalProcess "user-2" "2023-05-01" "someone" "backup");
        Realtime "2023-05-03T08:01:00.000Z" (Some "ws-1")
          (ImportWorkspaceVote "ws-1" "user-1" "Approve");
        Realtime "2023-05-03T08:02:00.000Z" (Some "ws-1") WorkspaceImported;
        BeginImport;
        Realtime "2023-05-03T08:03:00.000Z" (Some "ws-1")
          WorkspaceImportCancelApprovalProcess]).
Proof.
  assert (importStateOk initialState) as Hinit.
  { split; [by intros [? [=]]|by intros [[? [=]] _]]. }
  split; [exact Hinit|]. by apply steps_importStateOk.
Defined.

Lemma selectedWorkspacePkValue_Some url s w :
  workspacesByPk s !! default "" url = Some w → pk w ≠ "" →
  selectedWorkspacePkValue url s = Some (pk w).
Proof.
  intros Hw Hne. unfold selectedWorkspacePkValue, selectedWorkspacePk, selectedWorkspace.
  rewrite Hw. by rewrite decide_False.
Qed.

(** After the workspaces were fetched, a vote for the workspace that the
    URL selects is recorded under the voting user, and a vote for any other
    workspace changes nothing. *)
Theorem ImportWorkspaceVote_after_fetch
    (response : list AuthApiWorkspace) (w0 : AuthApiWorkspace) (now : IsoDateString)
    (workspacePk : WorkspacePk) (userPk : UserId) (vote : string) (s : State) :
  w0 ∈ response → id w0 ≠ "" →
  (workspacePk = id w0 →
     workspaceApprovals
       (onRealtimeEvent now (Some (id w0)) (ImportWorkspaceVote workspacePk userPk vote)
          (FETCH_USER_WORKSPACES_onSuccess response s))
     = <[userPk := vote]> (workspaceApprovals s)) ∧
  (workspacePk ≠ id w0 →
     onRealtimeEvent now (Some (id w0)) (ImportWorkspaceVote workspacePk userPk vote)
       (FETCH_USER_WORKSPACES_onSuccess response s)
     = FETCH_USER_WORKSPACES_onSuccess response s).
Proof.
  intros Hin Hne.
  assert (selectedWorkspacePkValue (Some (id w0))
            (FETCH_USER_WORKSPACES_onSuccess response s) = Some (id w0)) as Hsel.
  { destruct (ComponentsStoreMore.keyBy_lookup_is_Some pk (backfillPk <$> response)
                (backfillPk w0) (list_elem_of_fmap_2 _ _ _ Hin)) as [w Hw].
    pose proof (proj2 (ComponentsStoreMore.keyBy_lookup_Some _ _ _ _ Hw)) as Hpk.
    change (pk (backfillPk w0)) with (id w0) in Hw, Hpk.
    etrans; [apply (selectedWorkspacePkValue_Some (Some (id w0))
                      (FETCH_USER_WORKSPACES_onSuccess response s) w Hw)|by f_equal].
    intros He. apply Hne. by rewrite <-Hpk. }
  split; intros Hp; unfold onRealtimeEvent; rewrite Hsel.
  - by rewrite decide_True by (by subst).
  - by rewrite decide_False by congruence.
Qed.

Lemma ImportWorkspaceVote_after_fetch_witness :
  workspaceApprovals
    (onRealtimeEvent "2023-05-03T08:01:00.000Z" (Some "ws-1")
       (ImportWorkspaceVote "ws-1" "user-1" "Approve")
       (FETCH_USER_WORKSPACES_onSuccess [workspace "ws-1" "first"] initialState))
  = <[("user-1" : UserId) := "Approve"]> ∅.
Proof.
  apply (proj1 (ImportWorkspaceVote_after_fetch [workspace "ws-1" "first"]
                  (workspace "ws-1" "first") "2023-05-03T08:01:00.000Z" "ws-1"
                  "user-1" "Approve" initialState ltac:(left) ltac:(done))).
  done.
Defined.

End WorkspacesStoreProofs.

(* ===================================================================== *)
(** * Properties of the feature-flags store                               *)
(* ===================================================================== *)

Module FeatureFlagsStoreProofs.
Import FeatureFlagsStore.

Ltac mapping_cases H :=
  vm_compute in H; repeat (apply elem_of_cons in H as [[= ? ?]|H]);
  [..|by apply elem_of_nil in H]; subst.

Lemma PH_TO_STORE_FLAG_LOOKUP_spec ph key :
  PH_TO_STORE_FLAG_LOOKUP !! ph = Some key ↔ (key, ph) ∈ FLAG_MAPPING.
Proof.
  split.
  - intros H%elem_of_map_to_list.
    vm_compute map_to_list in H.
    repeat (apply elem_of_cons in H as [[= -> ->]|H]);
      [..|by apply elem_of_nil in H]; unfold FLAG_MAPPING;
      repeat first [by left | right].
  - intros H. unfold FLAG_MAPPING in H.
    repeat (apply elem_of_cons in H as [[= -> ->]|H]);
      [..|by apply elem_of_nil in H]; by vm_compute.
Qed.

Lemma FLAG_MAPPING_key_unique key ph ph' :
  (key, ph) ∈ FLAG_MAPPING → (key, ph') ∈ FLAG_MAPPING → ph = ph'.
Proof.
  intros H H'. unfold FLAG_MAPPING in *.
  repeat (apply elem_of_cons in H as [[= -> ->]|H]);
    [..|by apply elem_of_nil in H];
    repeat (apply elem_of_cons in H' as [[= <-]|H']);
    try done; by apply elem_of_nil in H'.
Qed.

Lemma onFeatureFlags_unknown_key phFlags key :
  key ∉ FLAG_MAPPING.*1 → ∀ st, onFeatureFlags phFlags st !! key = st !! key.
Proof.
  intros Hkey. unfold onFeatureFlags.
  induction phFlags as [|p l IH]; intros st; [done|]. simpl. rewrite IH.
  destruct (PH_TO_STORE_FLAG_LOOKUP !! p) as [k|] eqn:Hp; [|done].
  apply lookup_insert_ne. intros ->. apply Hkey.
  apply PH_TO_STORE_FLAG_LOOKUP_spec in Hp. by apply (list_elem_of_fmap_2 fst) in Hp.
Qed.

Lemma onFeatureFlags_known_key phFlags key ph :
  (key, ph) ∈ FLAG_MAPPING →
  ∀ st, onFeatureFlags phFlags st !! key
        = if decide (ph ∈ phFlags) then Some true else st !! key.
Proof.
  intros Hm. unfold onFeatureFlags.
  induction phFlags as [|p l IH]; intros st; [done|]. simpl. rewrite IH.
  destruct (decide (ph ∈ l)) as [Hl|Hl].
  { by rewrite decide_True by (by right). }
  destruct (decide (p = ph)) as [->|Hne].
  - rewrite decide_True by left.
    apply PH_TO_STORE_FLAG_LOOKUP_spec in Hm as ->. apply lookup_insert_eq.
  - rewrite decide_False by (rewrite elem_of_cons; naive_solver).
    destruct (PH_TO_STORE_FLAG_LOOKUP !! p) as [k|] eqn:Hp; [|done].
    apply lookup_insert_ne. intros ->.
    apply PH_TO_STORE_FLAG_LOOKUP_spec in Hp.
    by destruct (Hne (FLAG_MAPPING_key_unique _ _ _ Hp Hm)).
Qed.

(** A flag of the mapping is on after a posthog update exactly when it was
    on before or its posthog name is among the flags received, and nothing
    in the state is ever switched off. *)
Theorem onFeatureFlags_switches_on (phFlags : list string) (state : gmap string bool) :
  (∀ key ph, (key, ph) ∈ FLAG_MAPPING →
     onFeatureFlags phFlags state !! key
       = if decide (ph ∈ phFlags) then Some true else state !! key) ∧
  (∀ key, state !! key = Some true → onFeatureFlags phFlags state !! key = Some true).
Proof.
  split; [intros; by apply onFeatureFlags_known_key|].
  intros key Hon. destruct (decide (key ∈ FLAG_MAPPING.*1)) as [Hin|Hnin].
  - apply list_elem_of_fmap in Hin as ([k ph] & -> & Hin). simpl.
    rewrite (onFeatureFlags_known_key phFlags k ph Hin). by destruct (decide _).
  - by rewrite onFeatureFlags_unknown_key.
Qed.

Lemma onFeatureFlags_switches_on_witness :
  onFeatureFlags ["secrets"; "not_a_flag"; "workspaceBackups"] initialState !! "SECRETS"
    = Some true ∧
  onFeatureFlags ["secrets"; "not_a_flag"; "workspaceBackups"] initialState !! "MODULES_TAB"
    = Some false ∧
  onFeatureFlags [] (onFeatureFlags ["secrets"] initialState) !! "SECRETS" = Some true.
Proof.
  split; [|split].
  - rewrite (proj1 (onFeatureFlags_switches_on _ _) "SECRETS" "secrets")
      by (right; left). by vm_compute.
  - rewrite (proj1 (onFeatureFlags_switches_on _ _) "MODULES_TAB" "modules_tab")
      by left. by vm_compute.
  - apply (proj2 (onFeatureFlags_switches_on [] _)). by vm_compute.
Defined.

End FeatureFlagsStoreProofs.

(* ===================================================================== *)
(** * Further properties of the job-record creation procedure             *)
(* ===================================================================== *)

Module StatusUpdatesMore.
Import StatusUpdates.

(** While every key of the table lies below the sequence, a creation hands
    out a key no row has: the keys stay pairwise distinct and below the
    sequence, and the object returned reports the new row's key and data. *)
Theorem status_update_create_v1_fresh_pk
    (tenancy_json_to_columns_v1 : Json → tenancy_record_v1)
    (now : string) (this_attribute_value_id : Z) (this_tenancy : Json)
    (db db' : Database) (object : Json) :
  pksBelowSequence db →
  NoDup (pk <$> status_updates db) →
  status_update_create_v1 tenancy_json_to_columns_v1 now
      this_attribute_value_id this_tenancy db = inr (db', object) →
  pksBelowSequence db' ∧
  NoDup (pk <$> status_updates db') ∧
  json_get "pk" object = Some (JNumber (status_updates_pk_seq db)) ∧
  (∃ row, last (status_updates db') = Some row ∧
          pk row = status_updates_pk_seq db ∧
          json_get "data" object = Some (data row)).
Proof.
  intros Hbelow Hnd. unfold status_update_create_v1.
  destruct (tr_tenancy_universal _) as [universal|]; [|done].
  intros [= <- <-]. simpl. split; [|split; [|split; [done|]]].
  - unfold pksBelowSequence. simpl. apply Forall_app. split.
    + eapply Forall_impl; [exact Hbelow|]. simpl. intros r Hr. lia.
    + apply Forall_singleton. simpl. lia.
  - rewrite fmap_app. apply NoDup_app. split; [done|]. split; [|apply NoDup_singleton].
    intros p (r & Hp & Hr)%list_elem_of_fmap Hq%list_elem_of_singleton.
    unfold pksBelowSequence in Hbelow. rewrite Forall_forall in Hbelow.
    specialize (Hbelow r Hr). simpl in *. lia.
  - eexists. rewrite last_snoc. done.
Qed.

Lemma status_update_create_v1_fresh_pk_witness :
  pksBelowSequence emptyDatabase ∧
  ∃ db1 o1 db2 o2,
    status_update_create_v1 sample_tenancy_reader "2023-05-03 08:00:00+00" 42
      (JObject [("tenancy_universal", JBool false)]) emptyDatabase = inr (db1, o1) ∧
    status_update_create_v1 sample_tenancy_reader "2023-05-03 08:00:01+00" 43
      (JObject [("tenancy_universal", JBool false)]) db1 = inr (db2, o2) ∧
    NoDup (pk <$> status_updates db2) ∧
    json_get "pk" o2 = Some (JNumber 2).
Proof.
  assert (pksBelowSequence emptyDatabase) as H0 by constructor.
  split; [exact H0|].
  destruct (status_update_create_v1 sample_tenancy_reader "2023-05-03 08:00:00+00" 42
              (JObject [("tenancy_universal", JBool false)]) emptyDatabase)
    as [|[db1 o1]] eqn:E1; [by vm_compute in E1|].
  destruct (status_update_create_v1_fresh_pk _ _ _ _ _ _ _ H0 (NoDup_nil_2) E1)
    as (H1 & Hnd1 & _).
  destruct (status_update_create_v1 sample_tenancy_reader "2023-05-03 08:00:01+00" 43
              (JObject [("tenancy_universal", JBool false)]) db1)
    as [|[db2 o2]] eqn:E2.
  { vm_compute in E1. injection E1 as <- _. by vm_compute in E2. }
  destruct (status_update_create_v1_fresh_pk _ _ _ _ _ _ _ H1 Hnd1 E2)
    as (_ & Hnd2 & Hpk & _).
  exists db1, o1, db2, o2. split; [done|]. split; [done|]. split; [done|].
  rewrite Hpk. vm_compute in E1. by injection E1 as <- _.
Defined.

End StatusUpdatesMore.

(* ===================================================================== *)
(** * The component tree: [componentsByParentId] and the path walk         *)
(* ===================================================================== *)

Module ComponentTreeProofs.
Import ComponentsStore ComponentsStoreMore.

(** ** The groups of [componentsByParentId] *)

Section groups.
Variable byNodeId : gmap ComponentNodeId FullComponent.

Definition groupStep (acc : Result (gmap ComponentId (list FullComponent))) (c : FullComponent) :=
  Result_bind acc (λ m,
  Result_bind (parentKey byNodeId c) (λ key,
  Ok (<[key := default [] (m !! key) ++ [c]]> m))).

Lemma groupStep_Ok m0 a :
  groupStep (Ok m0) a
  = match parentKey byNodeId a with
    | Ok key => Ok (<[key := default [] (m0 !! key) ++ [a]]> m0)
    | TypeError => TypeError
    end.
Proof. unfold groupStep. simpl. by destruct (parentKey byNodeId a). Qed.

Lemma foldl_groupStep_TypeError l : foldl groupStep TypeError l = TypeError.
Proof. by induction l. Qed.

Lemma foldl_groupStep_Ok l m0 m :
  foldl groupStep (Ok m0) l = Ok m →
  ∀ k c, c ∈ default [] (m !! k)
         ↔ c ∈ default [] (m0 !! k) ∨ (c ∈ l ∧ parentKey byNodeId c = Ok k).
Proof.
  revert m0. induction l as [|a l IH]; intros m0.
  - intros [= ->] k c. split; [by left|]. intros [?|[[]%elem_of_nil _]]; done.
  - change (foldl groupStep (Ok m0) (a :: l)) with (foldl groupStep (groupStep (Ok m0) a) l).
    rewrite groupStep_Ok. destruct (parentKey byNodeId a) as [key|] eqn:Ea.
    2: { by rewrite foldl_groupStep_TypeError. }
    intros Hm k c. rewrite (IH _ Hm k c), elem_of_cons.
    destruct (decide (key = k)) as [->|Hne].
    + rewrite lookup_insert_eq. simpl. rewrite elem_of_app, list_elem_of_singleton.
      split; [intros [[?| ->]|[? ?]]|intros [?|[[->|?] ?]]]; eauto.
    + rewrite lookup_insert_ne by done.
      split; [intros [?|[? ?]]|intros [?|[[->|?] ?]]]; eauto. congruence.
Qed.

Lemma foldl_groupStep_throws l m0 :
  foldl groupStep (Ok m0) l = TypeError ↔ ∃ c, c ∈ l ∧ parentKey byNodeId c = TypeError.
Proof.
  revert m0. induction l as [|a l IH]; intros m0.
  - split; [done|]. by intros (c & []%elem_of_nil & _).
  - change (foldl groupStep (Ok m0) (a :: l)) with (foldl groupStep (groupStep (Ok m0) a) l).
    rewrite groupStep_Ok. destruct (parentKey byNodeId a) as [key|] eqn:Ea.
    + rewrite IH. split.
      * intros (c & Hc & Hk). exists c. split; [by right|done].
      * intros (c & [->|Hc]%elem_of_cons & Hk); [congruence|]. by exists c.
    + rewrite foldl_groupStep_TypeError. split; [|done]. intros _. exists a. split; [left|done].
Qed.

End groups.

Lemma parentKey_TypeError byNodeId c :
  parentKey byNodeId c = TypeError
  ↔ ∃ n, RawComponent.parentNodeId (rc c) = Some n ∧ n ≠ "" ∧ byNodeId !! n = None.
Proof.
  unfold parentKey. destruct (RawComponent.parentNodeId (rc c)) as [n|].
  - destruct (decide (n = "")) as [->|Hne].
    + split; [done|]. by intros (n & [= <-] & ? & _).
    + destruct (byNodeId !! n) as [p|] eqn:Hp.
      * split; [done|]. intros (n' & [= <-] & _ & Hn). congruence.
      * split; [|done]. intros _. by exists n.
  - split; [done|]. by intros (n & [=] & _).
Qed.

Lemma elem_of_allComponents s c :
  c ∈ allComponents s
  ↔ ∃ k r, rawComponentsById s !! k = Some r ∧ componentsById s !! k = Some c ∧ rc c = r.
Proof.
  unfold allComponents. rewrite list_elem_of_fmap. split.
  - intros ([k c'] & -> & Hk%elem_of_map_to_list). simpl.
    pose proof Hk as Hk'. unfold componentsById in Hk'. rewrite lookup_fmap in Hk'.
    destruct (rawComponentsById s !! k) as [r|] eqn:Hr; [|done].
    injection Hk' as <-. by exists k, r.
  - intros (k & r & _ & Hk & _). exists (k, c). split; [done|].
    by apply elem_of_map_to_list.
Qed.

Lemma componentsByNodeId_None s n :
  componentsByNodeId s !! n = None
  ↔ ∀ k r, rawComponentsById s !! k = Some r → RawComponent.nodeId r ≠ n.
Proof.
  unfold componentsByNodeId. split.
  - intros Hnone k r Hr Hn.
    assert (is_Some (componentsById s !! k)) as [c Hc].
    { apply componentsById_is_Some. by exists r. }
    assert (c ∈ allComponents s ∧ rc c = r) as [Hin Hrc].
    { pose proof Hc as Hc'. unfold componentsById in Hc'. rewrite lookup_fmap, Hr in Hc'.
      injection Hc' as <-. split; [|done]. apply elem_of_allComponents. by exists k, r. }
    destruct (keyBy_lookup_is_Some (λ c, RawComponent.nodeId (rc c)) _ c Hin) as [x Hx].
    simpl in Hx. rewrite Hrc, Hn in Hx.
    by pose proof (eq_trans (eq_sym Hx) Hnone).
  - intros Hall.
    destruct (keyBy (λ c, RawComponent.nodeId (rc c)) (allComponents s) !! n)
      as [c|] eqn:Hc; [|done].
    apply keyBy_lookup_Some in Hc as [(k & r & Hr & _ & Hrc)%elem_of_allComponents Hn].
    destruct (Hall k r Hr). by rewrite <-Hrc.
Qed.

(** [componentsByParentId] throws exactly when some component names a
    non-empty parent node id that no component of the store has. *)
Theorem componentsByParentId_throws_iff_dangling_parent (s : State) :
  componentsByParentId s = TypeError
  ↔ ∃ k c n, rawComponentsById s !! k = Some c ∧
             RawComponent.parentNodeId c = Some n ∧ n ≠ "" ∧
             ∀ k' c', rawComponentsById s !! k' = Some c' → RawComponent.nodeId c' ≠ n.
Proof.
  unfold componentsByParentId.
  change (foldl _ (Ok ∅) (allComponents s))
    with (foldl (groupStep (componentsByNodeId s)) (Ok ∅) (allComponents s)).
  rewrite foldl_groupStep_throws. split.
  - intros (c & (k & r & Hr & _ & Hrc)%elem_of_allComponents
              & (n & Hn & Hne & Hnone)%parentKey_TypeError).
    exists k, r, n. rewrite <-Hrc. split; [by rewrite Hrc|]. split; [done|]. split; [done|].
    by apply componentsByNodeId_None.
  - intros (k & r & n & Hr & Hn & Hne & Hnone).
    assert (is_Some (componentsById s !! k)) as [c Hc].
    { apply componentsById_is_Some. by exists r. }
    assert (rc c = r) as Hrc.
    { unfold componentsById in Hc. rewrite lookup_fmap, Hr in Hc. by injection Hc as <-. }
    exists c. split; [apply elem_of_allComponents; by exists k, r|].
    apply parentKey_TypeError. exists n. rewrite Hrc. split; [done|]. split; [done|].
    by apply componentsByNodeId_None.
Qed.

Lemma componentsByParentId_throws_iff_dangling_parent_witness :
  componentsByParentId (fetched orphan []) = TypeError.
Proof.
  apply (proj2 (componentsByParentId_throws_iff_dangling_parent (fetched orphan []))).
  exists "a", (withParent (Some "node-gone") (component "a" added)), "node-gone".
  split; [by vm_compute|]. split; [done|]. split; [done|].
  intros k' c' Hc'%elem_of_map_to_list. vm_compute in Hc'.
  apply list_elem_of_singleton in Hc'. injection Hc' as -> ->.
  intros Heq. by vm_compute in Heq.
Defined.

(** ** The walk of [parentIdPathByComponentId] *)

Section tree_walk.
Variable G : gmap ComponentId (list FullComponent).
Variable ids : gset ComponentId.

(** Every component is in one group only, no component is called
    ["root"], and the groups hold components of [ids] only. *)
Hypothesis one_parent : ∀ k k' i, childOfIn G k i → childOfIn G k' i → k = k'.
Hypothesis root_is_no_id : ∀ k, ¬ childOfIn G k "root".
Hypothesis children_known : ∀ k i, childOfIn G k i → i ∈ ids.

Lemma default_last_cons (r a : ComponentId) p :
  default r (last (a :: p)) = default a (last p).
Proof.
  destruct p as [|b p]; [done|]. rewrite last_cons_cons.
  destruct (last (b :: p)) eqn:El; [done|]. by apply last_None in El.
Qed.

Lemma isPath_snoc r p i :
  isPath G r (p ++ [i]) ↔ isPath G r p ∧ childOfIn G (default r (last p)) i.
Proof.
  revert r. induction p as [|a p IH]; intros r.
  - simpl. tauto.
  - change (isPath G r ((a :: p) ++ [i]))
      with (childOfIn G r a ∧ isPath G a (p ++ [i])).
    rewrite IH, default_last_cons. simpl. tauto.
Qed.

Lemma isPath_lookup r p idx i :
  isPath G r p → p !! idx = Some i →
  childOfIn G (match idx with 0 => r | S j => default r (p !! j) end) i.
Proof.
  revert r idx. induction p as [|a p IH]; intros r idx; [done|].
  intros [Ha Hp] Hi. destruct idx as [|j]; simpl in *.
  - by injection Hi as <-.
  - pose proof (IH a j Hp Hi) as Hc. destruct j as [|j']; [done|]. simpl.
    assert (is_Some (p !! j')) as [q Hq].
    { apply lookup_lt_is_Some. apply lookup_lt_Some in Hi. lia. }
    by rewrite Hq in *.
Qed.

Lemma isPath_elem_child r p i : isPath G r p → i ∈ p → ∃ k, childOfIn G k i.
Proof.
  intros Hp (idx & Hi)%list_elem_of_lookup. eexists. by eapply isPath_lookup.
Qed.

Lemma isPath_root_NoDup p : isPath G "root" p → NoDup p.
Proof.
  intros Hp. apply NoDup_alt. intros a. induction a as [|a IH]; intros b i Ha Hb.
  - destruct b as [|b]; [done|]. exfalso.
    pose proof (isPath_lookup _ _ _ _ Hp Ha) as Hka.
    pose proof (isPath_lookup _ _ _ _ Hp Hb) as Hkb. simpl in Hka, Hkb.
    assert (is_Some (p !! b)) as [q Hq].
    { apply lookup_lt_is_Some. apply lookup_lt_Some in Hb. lia. }
    rewrite Hq in Hkb. simpl in Hkb.
    pose proof (one_parent _ _ _ Hka Hkb) as <-.
    destruct (isPath_elem_child _ _ "root" Hp) as [k Hk].
    { by eapply list_elem_of_lookup_2. }
    by apply root_is_no_id in Hk.
  - destruct b as [|b].
    + exfalso.
      pose proof (isPath_lookup _ _ _ _ Hp Ha) as Hka.
      pose proof (isPath_lookup _ _ _ _ Hp Hb) as Hkb. simpl in Hka, Hkb.
      assert (is_Some (p !! a)) as [q Hq].
      { apply lookup_lt_is_Some. apply lookup_lt_Some in Ha. lia. }
      rewrite Hq in Hka. simpl in Hka.
      pose proof (one_parent _ _ _ Hka Hkb) as ->.
      destruct (isPath_elem_child _ _ "root" Hp) as [k Hk].
      { by eapply list_elem_of_lookup_2. }
      by apply root_is_no_id in Hk.
    + f_equal.
      pose proof (isPath_lookup _ _ _ _ Hp Ha) as Hka.
      pose proof (isPath_lookup _ _ _ _ Hp Hb) as Hkb. simpl in Hka, Hkb.
      assert (is_Some (p !! a)) as [q Hq].
      { apply lookup_lt_is_Some. apply lookup_lt_Some in Ha. lia. }
      assert (is_Some (p !! b)) as [q' Hq'].
      { apply lookup_lt_is_Some. apply lookup_lt_Some in Hb. lia. }
      rewrite Hq in Hka. rewrite Hq' in Hkb. simpl in Hka, Hkb.
      pose proof (one_parent _ _ _ Hka Hkb) as <-.
      by apply (IH b q).
Qed.

Lemma isPath_root_length p : isPath G "root" p → length p ≤ size ids.
Proof.
  intros Hp. unfold size, set_size. simpl. apply submseteq_length.
  apply NoDup_submseteq; [by apply isPath_root_NoDup|].
  intros i Hi. apply elem_of_elements.
  destruct (isPath_elem_child _ _ _ Hp Hi) as [k Hk]. by eapply children_known.
Qed.

Lemma isPath_root_unique p q i :
  isPath G "root" (p ++ [i]) → isPath G "root" (q ++ [i]) → p = q.
Proof.
  revert q i. induction p as [|j p IH] using rev_ind; intros q i Hp Hq.
  - destruct q as [|j q _] using rev_ind; [done|]. exfalso.
    apply isPath_snoc in Hp as [_ Hp]. apply isPath_snoc in Hq as [Hq' Hq].
    rewrite last_snoc in Hq. simpl in Hp, Hq.
    pose proof (one_parent _ _ _ Hp Hq) as <-.
    apply isPath_snoc in Hq' as [_ Hj]. by apply root_is_no_id in Hj.
  - destruct q as [|j' q _] using rev_ind.
    + exfalso.
      apply isPath_snoc in Hp as [Hp' Hp]. apply isPath_snoc in Hq as [_ Hq].
      rewrite last_snoc in Hp. simpl in Hp, Hq.
      pose proof (one_parent _ _ _ Hp Hq) as ->.
      apply isPath_snoc in Hp' as [_ Hj]. by apply root_is_no_id in Hj.
    + apply isPath_snoc in Hp as [Hp' Hp]. apply isPath_snoc in Hq as [Hq' Hq].
      rewrite last_snoc in Hp, Hq. simpl in Hp, Hq.
      pose proof (one_parent _ _ _ Hp Hq) as <-.
      by rewrite (IH q j Hp' Hq').
Qed.

(** What the walk has written so far. *)
Definition pathsSound (m : gmap ComponentId (list ComponentId)) : Prop :=
  ∀ i q, m !! i = Some q → isPath G "root" (q ++ [i]).

Lemma processList_returns fuel :
  ∀ components parentIds parentsLookup,
    isPath G "root" parentIds →
    (∀ c, c ∈ components → c ∈ default [] (G !! default "root" (last parentIds))) →
    size ids < length parentIds + fuel →
    pathsSound parentsLookup →
    ∃ m, processList fuel G components parentIds parentsLookup = Some m ∧
         pathsSound m ∧
         (∀ i, is_Some (parentsLookup !! i) → is_Some (m !! i)) ∧
         (∀ c q i, c ∈ components → isPath G (RawComponent.id (rc c)) q →
                   last (RawComponent.id (rc c) :: q) = Some i → is_Some (m !! i)).
Proof.
  induction fuel as [|fuel IHfuel]; intros components parentIds parentsLookup Hpath.
  { intros _ Hlt _. apply isPath_root_length in Hpath. lia. }
  intros Hin Hlt. simpl.
  revert parentsLookup. induction components as [|c components IH];
    intros parentsLookup Hsound.
  - exists parentsLookup. split; [done|]. split; [done|]. split; [done|].
    by intros c q i []%elem_of_nil.
  - simpl.
    assert (childOfIn G (default "root" (last parentIds)) (RawComponent.id (rc c))) as Hc.
    { exists c. split; [apply Hin; left|done]. }
    destruct (IHfuel (default [] (G !! RawComponent.id (rc c)))
                (parentIds ++ [RawComponent.id (rc c)])
                (<[RawComponent.id (rc c) := parentIds]> parentsLookup))
      as (m1 & -> & Hs1 & Hdom1 & Hdesc1).
    { by apply isPath_snoc. }
    { intros c' Hc'. by rewrite last_snoc. }
    { rewrite length_app. simpl. lia. }
    { intros i q. destruct (decide (RawComponent.id (rc c) = i)) as [<-|Hne].
      - rewrite lookup_insert_eq. intros [= <-]. by apply isPath_snoc.
      - rewrite lookup_insert_ne by done. apply Hsound. }
    destruct (IH (λ c' Hc', Hin c' (list_elem_of_further _ _ _ Hc')) m1 Hs1)
      as (m & Hm & Hs & Hdom & Hdesc).
    exists m. split; [exact Hm|]. split; [exact Hs|]. split.
    + intros i Hi. apply Hdom, Hdom1.
      destruct (decide (RawComponent.id (rc c) = i)) as [<-|Hne].
      * by rewrite lookup_insert_eq.
      * by rewrite lookup_insert_ne.
    + intros c' q i [->|Hc']%elem_of_cons Hq Hlast; [|by eapply Hdesc].
      apply Hdom. destruct q as [|j q].
      * injection Hlast as <-. apply Hdom1. by rewrite lookup_insert_eq.
      * destruct Hq as [(cj & Hcj & <-) Hq]. by apply (Hdesc1 cj q i).
Qed.

End tree_walk.

(** A component called ["root"] in the top-level group has the top-level
    group as its children: the walk meets it at every level. *)
Lemma processList_root_named G c fuel :
  c ∈ default [] (G !! "root") → RawComponent.id (rc c) = "root" →
  ∀ components parentIds parentsLookup,
    c ∈ components → processList fuel G components parentIds parentsLookup = None.
Proof.
  intros Hc Hid. induction fuel as [|fuel IH]; [done|].
  intros components parentIds parentsLookup (l1 & l2 & ->)%list_elem_of_split.
  simpl. rewrite foldl_app. simpl.
  assert (∀ l, foldl (λ acc c0,
                 parentsLookup0 ← acc;
                 processList fuel G (default [] (G !! RawComponent.id (rc c0)))
                   (parentIds ++ [RawComponent.id (rc c0)])
                   (<[RawComponent.id (rc c0) := parentIds]> parentsLookup0))
               None l = None) as Hnone by (by induction l).
  destruct (foldl _ (Some parentsLookup) l1) as [m1|]; simpl; [|apply Hnone].
  rewrite Hid, (IH _ _ _ Hc). apply Hnone.
Qed.

Lemma componentsByParentId_groups s G :
  componentsByParentId s = Ok G →
  ∀ k c, c ∈ default [] (G !! k)
         ↔ c ∈ allComponents s ∧ parentKey (componentsByNodeId s) c = Ok k.
Proof.
  intros HG k c.
  rewrite (foldl_groupStep_Ok (componentsByNodeId s) (allComponents s) ∅ G HG k c).
  rewrite lookup_empty. simpl. rewrite elem_of_nil. tauto.
Qed.

Lemma keyedById_allComponents s c c' :
  keyedById s → c ∈ allComponents s → c' ∈ allComponents s →
  RawComponent.id (rc c) = RawComponent.id (rc c') → c = c'.
Proof.
  intros Hkeyed (k & r & Hr & Hk & Hrc)%elem_of_allComponents
         (k' & r' & Hr' & Hk' & Hrc')%elem_of_allComponents Hid.
  rewrite Hrc, Hrc', (Hkeyed _ _ Hr), (Hkeyed _ _ Hr') in Hid. subst k'.
  congruence.
Qed.

Lemma FETCH_DIAGRAM_DATA_keyedById components edges s :
  keyedById (FETCH_DIAGRAM_DATA_onSuccess components edges s).
Proof.
  unfold keyedById, FETCH_DIAGRAM_DATA_onSuccess, keyByEdges.
  destruct (keyByEdges_from_frame edges ∅
              (set_rawComponentsById (keyByComponents components) s)) as [h Hh].
  destruct (keyByEdges_from ∅ _ edges) as [m s2]. simpl in Hh. subst s2. simpl.
  intros k c Hc. by apply (keyBy_lookup_Some RawComponent.id components k c) in Hc as [_ ?].
Qed.

(** In a store that files every component under its own id and has no
    component called ["root"], [parentIdPathByComponentId] returns whenever
    [componentsByParentId] does, and it gives a component the path [p]
    exactly when [p] followed by the component's id descends from the
    top-level group through the groups of [componentsByParentId]. *)
Theorem parentIdPathByComponentId_paths
    (s : State) (byParentId : gmap ComponentId (list FullComponent)) :
  keyedById s →
  rawComponentsById s !! "root" = None →
  componentsByParentId s = Ok byParentId →
  ∃ paths,
    parentIdPathByComponentId s = Some (Ok paths) ∧
    ∀ i p, paths !! i = Some p ↔ isPath byParentId "root" (p ++ [i]).
Proof.
  intros Hkeyed Hroot HG.
  pose proof (componentsByParentId_groups s byParentId HG) as Hgroups.
  assert (∀ k i, childOfIn byParentId k i → is_Some (rawComponentsById s !! i)) as Hknown.
  { intros k i (c & [(k' & r & Hr & _ & Hrc)%elem_of_allComponents _]%Hgroups & <-).
    rewrite Hrc, (Hkeyed _ _ Hr). by exists r. }
  assert (∀ k k' i, childOfIn byParentId k i → childOfIn byParentId k' i → k = k') as Hone.
  { intros k k' i (c & [Hc Hk]%Hgroups & Hi) (c' & [Hc' Hk']%Hgroups & Hi').
    assert (c = c') as <-.
    { apply (keyedById_allComponents s); [done..|]. by etrans; [exact Hi|]. }
    pose proof (eq_trans (eq_sym Hk) Hk') as Heq. by injection Heq. }
  assert (∀ k, ¬ childOfIn byParentId k "root") as Hnoroot.
  { intros k [r Hr]%Hknown. by pose proof (eq_trans (eq_sym Hr) Hroot). }
  assert (∀ k i, childOfIn byParentId k i → i ∈ dom (rawComponentsById s)) as Hdom.
  { intros k i Hi%Hknown. by apply elem_of_dom. }
  destruct (processList_returns byParentId (dom (rawComponentsById s)) Hone Hnoroot Hdom
              (S (size (rawComponentsById s)))
              (default [] (byParentId !! "root")) [] ∅)
    as (paths & Hpaths & Hsound & _ & Hdesc).
  { done. }
  { done. }
  { rewrite size_dom. simpl. lia. }
  { intros i q. by rewrite lookup_empty. }
  exists paths. split.
  { unfold parentIdPathByComponentId. by rewrite HG, Hpaths. }
  intros i p. split; [apply Hsound|]. intros Hp.
  assert (is_Some (paths !! i)) as [q Hq].
  { destruct (p ++ [i]) as [|j rest] eqn:Epi; [by destruct p|].
    destruct Hp as [(c & Hc & <-) Hrest].
    apply (Hdesc c rest i Hc Hrest). by rewrite <-Epi, last_snoc. }
  rewrite Hq. f_equal.
  apply (isPath_root_unique byParentId Hone Hnoroot q p i); [by apply Hsound|done].
Qed.

Lemma parentIdPathByComponentId_paths_witness :
  ∃ paths,
    parentIdPathByComponentId (fetched family []) = Some (Ok paths) ∧
    paths !! "b" = Some ["frame"; "a"].
Proof.
  destruct (componentsByParentId (fetched family [])) as [byParentId|] eqn:HG;
    [|by vm_compute in HG].
  destruct (parentIdPathByComponentId_paths (fetched family []) byParentId
              (FETCH_DIAGRAM_DATA_keyedById family [] initialState)
              ltac:(by vm_compute) HG) as (paths & Hpaths & Hiff).
  exists paths. split; [done|].
  clear Hiff. vm_compute in Hpaths. injection Hpaths as <-. by vm_compute.
Defined.

(** A parentless component called ["root"] is its own child in
    [componentsByParentId]: whenever that getter returns, the walk of
    [parentIdPathByComponentId] never ends, whatever depth it is given. *)
Theorem parentIdPathByComponentId_root_named_never_returns
    (s : State) (k : ComponentId) (r : RawComponent.t)
    (byParentId : gmap ComponentId (list FullComponent)) (fuel : nat) :
  rawComponentsById s !! k = Some r →
  RawComponent.id r = "root" →
  RawComponent.parentNodeId r = None →
  componentsByParentId s = Ok byParentId →
  processList fuel byParentId (default [] (byParentId !! "root")) [] ∅ = None.
Proof.
  intros Hr Hid Hparent HG.
  assert (is_Some (componentsById s !! k)) as [c Hc].
  { apply componentsById_is_Some. by exists r. }
  assert (rc c = r) as Hrc.
  { unfold componentsById in Hc. rewrite lookup_fmap, Hr in Hc. by injection Hc as <-. }
  assert (c ∈ default [] (byParentId !! "root")) as Hin.
  { apply (componentsByParentId_groups s byParentId HG). split.
    - apply elem_of_allComponents. by exists k, r.
    - unfold parentKey. by rewrite Hrc, Hparent. }
  apply (processList_root_named byParentId c fuel Hin); [by rewrite Hrc|done].
Qed.

Lemma parentIdPathByComponentId_root_named_never_returns_witness :
  ∃ byParentId,
    componentsByParentId (fetched rootNamed []) = Ok byParentId ∧
    processList 1000 byParentId (default [] (byParentId !! "root")) [] ∅ = None.
Proof.
  destruct (componentsByParentId (fetched rootNamed [])) as [byParentId|] eqn:HG;
    [|by vm_compute in HG].
  exists byParentId. split; [done|].
  apply (parentIdPathByComponentId_root_named_never_returns
           (fetched rootNamed []) "root" (component "root" unmodified) byParentId 1000);
    [by vm_compute|done|done|exact HG].
Defined.

End ComponentTreeProofs.

(* ===================================================================== *)
(** * The change statistics under an optimistic deletion                  *)
(* ===================================================================== *)

Module ChangeStatsProofs.
Import ComponentsStore ComponentsStoreMore.

(** The number of components of the map that carry the status [st]. *)
Definition countStatus (st : ChangeStatus) (m : gmap ComponentId RawComponent.t) : nat :=
  length (filter (λ r, RawComponent.changeStatus r = st) (map_to_list m).*2).

Lemma length_filter_fmap {A B} (P : B → Prop) `{!∀ x, Decision (P x)}
    (Q : A → Prop) `{!∀ x, Decision (Q x)} (F : A → B) (l : list A) :
  (∀ x, P (F x) ↔ Q x) → length (filter P (F <$> l)) = length (filter Q l).
Proof.
  intros HPQ. induction l as [|a l IH]; [done|].
  rewrite fmap_cons, !filter_cons.
  destruct (decide (P (F a))) as [HP|HP], (decide (Q a)) as [HQ|HQ]; simpl;
    rewrite ?IH; try done; by apply HPQ in HP || apply HPQ in HQ.
Qed.

Lemma snd_prod_map_id {K A B} (F : A → B) (l : list (K * A)) :
  (prod_map id F <$> l).*2 = F <$> l.*2.
Proof. induction l as [|[k a] l IH]; [done|]. simpl. by f_equal. Qed.

Lemma changeStatusName_inj st st' :
  changeStatusName st = changeStatusName st' ↔ st = st'.
Proof. split; [|by intros ->]. by destruct st, st'. Qed.

Lemma changeStatsSummary_counts s :
  changeStatsSummary s
  = {| stats_added := countStatus added (rawComponentsById s);
       stats_deleted := countStatus deleted (rawComponentsById s);
       stats_modified := countStatus modified (rawComponentsById s);
       stats_unmodified := countStatus unmodified (rawComponentsById s);
       stats_total := size (rawComponentsById s) |}.
Proof.
  assert (∀ st,
    from_option length 0
      (groupBy (λ c, changeStatusName (RawComponent.changeStatus (rc c)))
               (allComponents s) !! changeStatusName st)
    = countStatus st (rawComponentsById s)) as Hcount.
  { intros st.
    destruct (groupBy_lookup (λ c, changeStatusName (RawComponent.changeStatus (rc c)))
                (allComponents s) (changeStatusName st)) as [Hg _].
    transitivity (length (filter
                   (λ c, changeStatusName (RawComponent.changeStatus (rc c))
                         = changeStatusName st) (allComponents s))).
    { rewrite <-Hg. by destruct (groupBy _ _ !! changeStatusName st). }
    unfold allComponents, componentsById, countStatus.
    rewrite map_to_list_fmap, snd_prod_map_id.
    apply length_filter_fmap. intros r. simpl. apply changeStatusName_inj. }
  unfold changeStatsSummary. cbv zeta.
  f_equal; [exact (Hcount added)|exact (Hcount deleted)|exact (Hcount modified)
           |exact (Hcount unmodified)|].
  unfold allComponents, componentsById.
  by rewrite length_fmap, length_map_to_list, map_size_fmap.
Qed.

Lemma size_alter (f : RawComponent.t → RawComponent.t) k
    (m : gmap ComponentId RawComponent.t) :
  size (alter f k m) = size m.
Proof. by rewrite <-!size_dom, dom_alter_L. Qed.

Lemma countStatus_alter f k m c st :
  m !! k = Some c →
  countStatus st (alter f k m) + (if decide (RawComponent.changeStatus c = st) then 1 else 0)
  = countStatus st m + (if decide (RawComponent.changeStatus (f c) = st) then 1 else 0).
Proof.
  intros Hc. unfold countStatus.
  assert (alter f k m !! k = Some (f c)) as Hfc by (by rewrite lookup_alter_eq, Hc).
  rewrite <-(map_to_list_delete m k c Hc), <-(map_to_list_delete _ k (f c) Hfc).
  rewrite delete_alter_eq, !fmap_cons, !filter_cons. simpl.
  repeat case_decide; simpl; lia.
Qed.

(** Deleting a component that is not yet marked deleted moves it to the
    deleted count of [changeStatsSummary] and leaves the total alone; the
    rollback brings the whole summary back, also where it cannot bring
    back the component's [deletedInfo]. *)
Theorem DELETE_COMPONENT_changeStatsSummary
    (nowTs : string) (componentId : ComponentId) (s s1 : State)
    (c : RawComponent.t) (rb : Rollback) :
  rawComponentsById s !! componentId = Some c →
  RawComponent.changeStatus c ≠ deleted →
  DELETE_COMPONENT_optimistic nowTs componentId s = Ok (s1, rb) →
  stats_total (changeStatsSummary s1) = stats_total (changeStatsSummary s) ∧
  stats_deleted (changeStatsSummary s1) = S (stats_deleted (changeStatsSummary s)) ∧
  ∃ s2, runRollback rb s1 = Ok s2 ∧ changeStatsSummary s2 = changeStatsSummary s.
Proof.
  intros Hc Hst. unfold DELETE_COMPONENT_optimistic. rewrite Hc. intros [= <- <-].
  set (f := λ c0, RawComponent.set_deletedInfo (Some {| timestamp := nowTs; actor := You |})
                    (RawComponent.set_changeStatus deleted c0)).
  rewrite !changeStatsSummary_counts. simpl.
  split; [apply size_alter|]. split.
  - pose proof (countStatus_alter f componentId _ c deleted Hc) as Hd.
    rewrite decide_False in Hd by done. simpl in Hd. lia.
  - rewrite lookup_alter_eq, Hc. simpl. eexists. split; [done|].
    rewrite !changeStatsSummary_counts. simpl.
    rewrite alter_alter_eq.
    set (g := λ c0, RawComponent.set_deletedInfo None
                      (RawComponent.set_changeStatus (RawComponent.changeStatus c) c0)).
    assert (∀ st, countStatus st (alter (g ∘ f) componentId (rawComponentsById s))
                  = countStatus st (rawComponentsById s)) as Hsame.
    { intros st. pose proof (countStatus_alter (g ∘ f) componentId _ c st Hc) as Hd.
      simpl in Hd. destruct (decide _); lia. }
    by rewrite !Hsame, size_alter.
Qed.

Lemma DELETE_COMPONENT_changeStatsSummary_witness :
  ∃ s1 rb,
    DELETE_COMPONENT_optimistic "2023-05-03T08:00:00.000Z" "a" (fetched family [])
      = Ok (s1, rb) ∧
    stats_deleted (changeStatsSummary s1) = 1 ∧
    stats_total (changeStatsSummary s1) = 3.
Proof.
  destruct (DELETE_COMPONENT_optimistic "2023-05-03T08:00:00.000Z" "a"
              (fetched family [])) as [[s1 rb]|] eqn:Hopt; [|by vm_compute in Hopt].
  exists s1, rb. split; [done|].
  destruct (DELETE_COMPONENT_changeStatsSummary "2023-05-03T08:00:00.000Z" "a"
              (fetched family []) s1 (withParent (Some "node-frame") (component "a" added))
              rb ltac:(by vm_compute) ltac:(done) Hopt) as (Htotal & Hdeleted & _).
  rewrite Htotal, Hdeleted. by vm_compute.
Defined.

End ChangeStatsProofs.
